(** * BundleMultiplexer: a model of gateware/bundle_multiplexer.py

    The multiplexer is a synchronous circuit.  One clock tick is modelled
    as a pure function from the registered state and the input signals of
    that tick to the combinational outputs and the next registered state. *)

From Stdlib Require Import ZArith List Bool Lia.
Import ListNotations.
Open Scope Z_scope.

(** ** Signals: widths, truncation and slices *)

Module Signal.

(** Modelled from the spec: the width of a signal is the number of bits
    needed for its range (section 6).  These are the HDL's own helpers:
    [log2_int(n, need_pow2=False)] is the least [r] with [n <= 2^r]. *)
Definition log2_int (n : Z) : Z := Z.log2_up n.

(** [bits_for(n)] for an unsigned value. *)
Definition bits_for (n : Z) : Z :=
  if 0 <? n then log2_int (n + 1) else log2_int (- n) + 1.

(** [Shape.cast(range(stop)).width] for [stop >= 1]. *)
Definition range_width (stop : Z) : Z :=
  Z.max (bits_for 0) (bits_for (stop - 1)).

(** Assigning a value to a signal of width [w] keeps its low [w] bits. *)
Definition trunc (w x : Z) : Z := Z.land x (Z.ones w).

(** [x[lo:hi]] *)
Definition slice (x lo hi : Z) : Z := trunc (hi - lo) (Z.shiftr x lo).

(** [x[lo:hi].eq(v)] on top of an earlier assignment [x]: the later
    assignment wins on the bits it covers. *)
Definition assign_slice (x lo hi v : Z) : Z :=
  Z.lor (Z.ldiff x (Z.shiftl (Z.ones (hi - lo)) lo))
        (Z.shiftl (trunc (hi - lo) v) lo).

End Signal.

Import Signal.

(** ** The circuit *)

Module BundleMultiplexer.

Definition NO_CHANNELS_ADAT : Z := 8.
Definition SAMPLE_WIDTH : Z := 24.

(** *** Stream interfaces *)

(** One input bundle stream, as driven by its producer during a tick.
    [in_ready] is an output of the core and is computed below. *)
Record stream_in : Type := mk_stream_in {
  in_valid : bool;
  in_payload : Z;
  in_channel_nr : Z;
  in_first : bool;
  in_last : bool
}.

(** All inputs of one tick: the bundle streams and the consumer's ready. *)
Record inputs : Type := mk_inputs {
  bundles_in : nat -> stream_in;
  out_ready : bool
}.

(** [channel_stream_out], the signals driven by the core. *)
Record stream_out : Type := mk_stream_out {
  payload : Z;
  channel_nr : Z;
  valid : bool;
  first : bool;
  last : bool
}.

(** Combinational signals that are not assigned keep their reset value. *)
Definition idle_out : stream_out := mk_stream_out 0 0 false false false.

(** *** Receive FIFOs *)

(** Modelled from the spec: [SyncFIFO] (section 4.1, a bounded
    first-in first-out queue whose front is visible in the same tick).
    The queue holds the stored words, oldest first.  A write is taken
    when the queue is not full at the start of the tick, a read when it
    is not empty at the start of the tick. *)
Module Fifo.
Definition t : Type := list Z.
Definition depth : nat := Z.to_nat NO_CHANNELS_ADAT.
Definition r_rdy (q : t) : bool :=
  match q with [] => false | _ :: _ => true end.
Definition w_rdy (q : t) : bool := (length q <? depth)%nat.
Definition r_data (q : t) : Z := hd 0 q.
Definition do_read (q : t) (r_en : bool) : bool := r_rdy q && r_en.
Definition do_write (q : t) (w_en : bool) : bool := w_rdy q && w_en.
Definition tick (q : t) (w_en : bool) (w_data : Z) (r_en : bool) : t :=
  (if do_read q r_en then tl q else q)
    ++ (if do_write q w_en then [w_data] else []).
End Fifo.

Section Core.

Variable no_bundles : nat.

Definition _channel_bits : Z :=
  range_width (Z.of_nat no_bundles * NO_CHANNELS_ADAT).
Definition _bundle_channel_bits : Z := range_width NO_CHANNELS_ADAT.
Definition bundle_index_bits : Z := range_width (Z.of_nat no_bundles).
Definition fifo_width : Z := SAMPLE_WIDTH + _bundle_channel_bits + 1.

(** Registered state: the receive FIFOs and the two sync signals. *)
Record state : Type := mk_state {
  fifos : list Fifo.t;
  current_bundle : Z;
  first_bundle_channel : Z
}.

Definition reset : state := mk_state (repeat [] no_bundles) 0 0.

(** Modelled from the spec: [connect_stream_to_fifo] (section 6):
    write-enable is the producer's valid, the producer's ready is the
    FIFO's write-ready and the payload drives the low bits of the
    written word.  The first flag is not connected. *)
Definition connect_w_en (b : stream_in) : bool := in_valid b.
Definition connect_w_data (b : stream_in) : Z :=
  trunc fifo_width (trunc SAMPLE_WIDTH (in_payload b)).

(** [fifo.w_data]: the connect assignment, then the two slice
    assignments of the loop body. *)
Definition w_data (b : stream_in) : Z :=
  assign_slice
    (assign_slice (connect_w_data b)
                  SAMPLE_WIDTH fifo_width
                  (trunc _bundle_channel_bits (in_channel_nr b)))
    (fifo_width - 1) fifo_width (Z.b2z (in_last b)).

Definition fifo (s : state) (i : nat) : Fifo.t := nth i (fifos s) [].

Definition in_ready (s : state) (i : nat) : bool := Fifo.w_rdy (fifo s i).

Definition bundle_ready (s : state) (i : nat) : bool :=
  Fifo.r_rdy (fifo s i).
(** The three fields of a stored word: [r_data[:sample_width]],
    [r_data[sample_width:sample_width + bundle_bits]], [r_data[-1]]. *)
Definition word_sample (w : Z) : Z := slice w 0 SAMPLE_WIDTH.
Definition word_channel (w : Z) : Z :=
  slice w SAMPLE_WIDTH (SAMPLE_WIDTH + _bundle_channel_bits).
Definition word_last (w : Z) : bool := Z.testbit w (fifo_width - 1).

Definition bundle_sample (s : state) (i : nat) : Z :=
  word_sample (Fifo.r_data (fifo s i)).
Definition bundle_channel (s : state) (i : nat) : Z :=
  word_channel (Fifo.r_data (fifo s i)).
Definition bundle_last (s : state) (i : nat) : bool :=
  word_last (Fifo.r_data (fifo s i)).

(** Indexing an [Array] by a signal: an index past the end selects the
    last element. *)
Definition selected (s : state) : nat :=
  Nat.min (Z.to_nat (current_bundle s)) (no_bundles - 1).

Definition last_bundle : Z := Z.of_nat no_bundles - 1.

(** The condition of the outer [m.If]. *)
Definition emit (s : state) (inp : inputs) : bool :=
  bundle_ready s (selected s) && out_ready inp.

Definition channel_stream_out (s : state) (inp : inputs) : stream_out :=
  if emit s inp then
    {| payload := bundle_sample s (selected s);
       channel_nr := trunc _channel_bits
                       (first_bundle_channel s
                        + bundle_channel s (selected s));
       valid := true;
       first := (current_bundle s =? 0)
                && (bundle_channel s (selected s) =? 0);
       last := bundle_last s (selected s)
               && (current_bundle s =? last_bundle) |}
  else idle_out.

Definition read_enable (s : state) (inp : inputs) (i : nat) : bool :=
  emit s inp && (i =? selected s)%nat.

(** The sync domain: next values of the two selector registers. *)
Definition next_current_bundle (s : state) (inp : inputs) : Z :=
  if emit s inp && bundle_last s (selected s) then
    if current_bundle s =? last_bundle then 0
    else trunc bundle_index_bits (current_bundle s + 1)
  else current_bundle s.

Definition next_first_bundle_channel (s : state) (inp : inputs) : Z :=
  if emit s inp && bundle_last s (selected s) then
    if current_bundle s =? last_bundle then 0
    else trunc _channel_bits (first_bundle_channel s + NO_CHANNELS_ADAT)
  else first_bundle_channel s.

Fixpoint mapi {A B : Type} (f : nat -> A -> B) (i : nat) (l : list A)
  : list B :=
  match l with
  | [] => []
  | x :: r => f i x :: mapi f (S i) r
  end.

(** One clock tick. *)
Definition step (s : state) (inp : inputs) : state :=
  {| fifos :=
       mapi (fun i q =>
               Fifo.tick q (connect_w_en (bundles_in inp i))
                         (w_data (bundles_in inp i))
                         (read_enable s inp i))
            0%nat (fifos s);
     current_bundle := next_current_bundle s inp;
     first_bundle_channel := next_first_bundle_channel s inp |}.

Fixpoint run (s : state) (ins : list inputs) : state :=
  match ins with
  | [] => s
  | inp :: rest => run (step s inp) rest
  end.

(** The output signals of every tick of a run. *)
Fixpoint outputs (s : state) (ins : list inputs) : list stream_out :=
  match ins with
  | [] => []
  | inp :: rest => channel_stream_out s inp :: outputs (step s inp) rest
  end.

(** *** Observations on a run *)

Definition selector (s : state) : Z * Z :=
  (current_bundle s, first_bundle_channel s).

Definition reachable (s : state) : Prop :=
  exists ins, s = run reset ins.

(** A transferred event: the output signals of a tick on which the
    core emits, together with the bundle whose read-enable is raised
    on that tick and the FIFO word that is consumed. *)
Record event : Type := mk_event {
  ev_bundle : nat;
  ev_word : Z;
  ev_out : stream_out
}.

Definition tick_event (s : state) (inp : inputs) : list event :=
  if emit s inp then
    [ {| ev_bundle := selected s;
         ev_word := Fifo.r_data (fifo s (selected s));
         ev_out := channel_stream_out s inp |} ]
  else [].

Fixpoint emitted (s : state) (ins : list inputs) : list event :=
  match ins with
  | [] => []
  | inp :: rest => tick_event s inp ++ emitted (step s inp) rest
  end.

(** The output events seen by the consumer: ticks with valid set. *)
Definition transferred (s : state) (ins : list inputs) : list stream_out :=
  filter valid (outputs s ins).

(** The word accepted by FIFO [b] on a tick, if any. *)
Definition written (s : state) (inp : inputs) (b : nat) : list Z :=
  if Fifo.do_write (fifo s b) (connect_w_en (bundles_in inp b))
  then [w_data (bundles_in inp b)] else [].

Fixpoint writes (b : nat) (s : state) (ins : list inputs) : list Z :=
  match ins with
  | [] => []
  | inp :: rest => written s inp b ++ writes b (step s inp) rest
  end.

(** The words read from FIFO [b], in the order of their emission. *)
Definition reads (b : nat) (l : list event) : list Z :=
  map ev_word (filter (fun e => (ev_bundle e =? b)%nat) l).

(** A frame of a bundle ends with the event whose stored last flag is
    set. *)
Definition frame_end (e : event) : bool := word_last (ev_word e).

Definition frames (l : list event) : nat :=
  length (filter frame_end l).

Definition frames_done (b : nat) (l : list event) : nat :=
  length (filter (fun e => (ev_bundle e =? b)%nat && frame_end e) l).

(** The bundle that follows [b] in the round. *)
Definition next_bundle (b : nat) : nat :=
  if (b =? no_bundles - 1)%nat then 0%nat else S b.

(** A list of events is at a frame boundary when it is empty or ends
    with the end of a frame. *)
Definition frame_boundary (l : list event) : bool :=
  match rev l with
  | [] => true
  | e :: _ => frame_end e
  end.

(** [seg] is one full round of a trace that continues [pre]: [pre]
    holds complete rounds only, and [seg] is [no_bundles] complete
    frames. *)
Definition full_round (pre seg : list event) : bool :=
  frame_boundary pre
  && (frames pre mod no_bundles =? 0)%nat
  && negb (match seg with [] => true | _ :: _ => false end)
  && frame_boundary seg
  && (frames seg =? no_bundles)%nat.

(** A list of FIFO words that carries complete frames one after the
    other: sub-channels in the order [0, 1, ..., NO_CHANNELS_ADAT - 1],
    over and over, with the last flag on the final sub-channel exactly,
    when the next sub-channel due is [c]. *)
Fixpoint framed_from (c : Z) (l : list Z) : bool :=
  match l with
  | [] => true
  | w :: r =>
      (word_channel w =? c)
      && Bool.eqb (word_last w) (c =? NO_CHANNELS_ADAT - 1)
      && framed_from ((c + 1) mod NO_CHANNELS_ADAT) r
  end.

(** The words every FIFO accepts over a run from reset are framed.  This
    is about the events transferred on the input handshakes, with valid
    and ready both high; a word that a producer offers while its FIFO is
    full is not accepted and does not count, so a producer that sends
    framed data but does not wait for ready need not satisfy it. *)
Definition accepted_framed (ins : list inputs) : Prop :=
  forall b, (b < no_bundles)%nat ->
            framed_from 0 (writes b reset ins) = true.

(** The invariant of the registered state. *)
Definition inv (s : state) : Prop :=
  length (fifos s) = no_bundles
  /\ 0 <= current_bundle s < Z.of_nat no_bundles
  /\ first_bundle_channel s = current_bundle s * NO_CHANNELS_ADAT.

(** The output signals that go with reading word [w] from bundle [b]. *)
Definition expected_out (b : nat) (w : Z) : stream_out :=
  {| payload := word_sample w;
     channel_nr := Z.of_nat b * NO_CHANNELS_ADAT + word_channel w;
     valid := true;
     first := (b =? 0)%nat && (word_channel w =? 0);
     last := word_last w && (b =? no_bundles - 1)%nat |}.

(** A trace that drains the bundles in round-robin order, starting in
    the middle of a frame of bundle [b]. *)
Fixpoint follows (b : nat) (l : list event) : Prop :=
  match l with
  | [] => True
  | e :: r =>
      ev_bundle e = b
      /\ ev_out e = expected_out b (ev_word e)
      /\ follows (if frame_end e then next_bundle b else b) r
  end.

(** The bundle that is selected after the events of [l], when bundle
    [b] was selected before them. *)
Fixpoint bundle_after (b : nat) (l : list event) : nat :=
  match l with
  | [] => b
  | e :: r => bundle_after (if frame_end e then next_bundle b else b) r
  end.

(** Output events whose channel numbers count up from [c] and start
    again at 0 after an event with the last flag. *)
Fixpoint numbered (c : Z) (l : list stream_out) : Prop :=
  match l with
  | [] => True
  | o :: r =>
      channel_nr o = c /\ numbered (if last o then 0 else c + 1) r
  end.

(** Two ticks' inputs that agree on everything but the first flags of
    the bundle streams. *)
Definition same_but_first (i1 i2 : inputs) : Prop :=
  out_ready i1 = out_ready i2
  /\ forall b,
      in_valid (bundles_in i1 b) = in_valid (bundles_in i2 b)
      /\ in_payload (bundles_in i1 b) = in_payload (bundles_in i2 b)
      /\ in_channel_nr (bundles_in i1 b) = in_channel_nr (bundles_in i2 b)
      /\ in_last (bundles_in i1 b) = in_last (bundles_in i2 b).

(** The words a bundle's producer offers over a run: one for every tick
    on which it asserts valid, taken or not. *)
Fixpoint offered (b : nat) (ins : list inputs) : list Z :=
  match ins with
  | [] => []
  | inp :: rest =>
      (if connect_w_en (bundles_in inp b)
       then [w_data (bundles_in inp b)] else [])
      ++ offered b rest
  end.

End Core.

End BundleMultiplexer.

Import BundleMultiplexer.

(** ** The test bench *)

Module BundleMultiplexerTest.

(** The bench drives the input signals; a signal keeps its value until
    it is set again, and a bare [yield] lets one clock tick pass with the
    values driven at that moment.  The fragment under test has the
    default four bundles. *)
Definition idle : stream_in := mk_stream_in false 0 0 false false.
Definition undriven : inputs := mk_inputs (fun _ => idle) false.

Definition drive (d : inputs) (bundle : nat) (x : stream_in) : inputs :=
  mk_inputs (fun i => if (i =? bundle)%nat then x else bundles_in d i)
            (out_ready d).

Definition drive_ready (d : inputs) (r : bool) : inputs :=
  mk_inputs (bundles_in d) r.

Definition set_valid (x : stream_in) (v : bool) : stream_in :=
  mk_stream_in v (in_payload x) (in_channel_nr x) (in_first x) (in_last x).

(** [send_one_frame]: the ticks that pass, and the signals driven
    afterwards. *)
Definition send_one_frame (d : inputs) (bundle : nat) (sample channel : Z)
           (wait : bool) : list inputs * inputs :=
  let d1 := drive d bundle
                  (mk_stream_in true sample channel
                                (channel =? 0) (channel =? 7)) in
  let d2 := drive d1 bundle (set_valid (bundles_in d1 bundle) false) in
  (d1 :: (if wait then [d2] else []), d2).

Fixpoint send_channels (d : inputs) (bundle : nat) (sample : Z)
         (channels : list Z) : list inputs * inputs :=
  match channels with
  | [] => ([], d)
  | channel :: rest =>
      let '(t1, d1) := send_one_frame d bundle
                                      (Z.shiftl sample 8 + channel)
                                      channel false in
      let '(t2, d2) := send_channels d1 bundle sample rest in
      (t1 ++ t2, d2)
  end.

Definition send_bundle_frame (d : inputs) (bundle : nat) (sample : Z)
  : list inputs * inputs :=
  send_channels d bundle sample
                (map Z.of_nat (seq 0 (Z.to_nat NO_CHANNELS_ADAT))).

Fixpoint send_bundles (d : inputs) (bundles : list nat)
  : list inputs * inputs :=
  match bundles with
  | [] => ([], d)
  | bundle :: rest =>
      let '(t1, d1) := send_bundle_frame d bundle (Z.of_nat bundle) in
      let '(t2, d2) := send_bundles d1 rest in
      (t1 ++ t2, d2)
  end.

(** [test_smoke]: the inputs of every tick of the test. *)
Definition test_smoke : list inputs :=
  let d0 := undriven in
  let d1 := drive_ready d0 true in
  let '(t, d2) := send_bundles d1 (seq 0 4) in
  [d0] ++ [d1] ++ t ++ [d2; d2].

End BundleMultiplexerTest.

(** ** Words and their fields *)

Lemma trunc_range w x : 0 <= w -> 0 <= trunc w x < 2 ^ w.
Proof.
  intros Hw. unfold trunc. rewrite Z.land_ones by assumption.
  apply Z.mod_pos_bound. apply Z.pow_pos_nonneg; lia.
Qed.

Lemma trunc_small w x : 0 <= w -> 0 <= x < 2 ^ w -> trunc w x = x.
Proof.
  intros Hw Hx. unfold trunc. rewrite Z.land_ones by assumption.
  apply Z.mod_small; assumption.
Qed.

Lemma bundle_channel_bits_eq : _bundle_channel_bits = 3.
Proof. reflexivity. Qed.

Lemma fifo_width_eq : fifo_width = 28.
Proof. reflexivity. Qed.

Lemma testbit_trunc w x i :
  0 <= w -> 0 <= i -> Z.testbit (trunc w x) i = Z.testbit x i && (i <? w).
Proof.
  intros Hw Hi. unfold trunc. rewrite Z.land_spec, Z.testbit_ones by assumption.
  destruct (Z.leb_spec 0 i); [ reflexivity | lia ].
Qed.

Lemma testbit_assign_slice x lo hi v i :
  0 <= lo <= hi -> 0 <= i ->
  Z.testbit (assign_slice x lo hi v) i =
    if (lo <=? i) && (i <? hi) then Z.testbit v (i - lo) else Z.testbit x i.
Proof.
  intros Hlh Hi. unfold assign_slice.
  rewrite Z.lor_spec, Z.ldiff_spec, !Z.shiftl_spec by assumption.
  destruct (Z.leb_spec lo i) as [Hle | Hlt]; cbn [andb].
  - rewrite testbit_trunc, Z.testbit_ones by lia.
    destruct (Z.leb_spec 0 (i - lo)); [ | lia ].
    destruct (Z.ltb_spec i hi), (Z.ltb_spec (i - lo) (hi - lo)); try lia;
      cbn; rewrite ?andb_true_r, ?andb_false_r, ?orb_false_r; reflexivity.
  - rewrite !(Z.testbit_neg_r _ (i - lo)) by lia.
    rewrite andb_true_r, orb_false_r. reflexivity.
Qed.

Lemma testbit_w_data (b : stream_in) i :
  0 <= i ->
  Z.testbit (w_data b) i =
    if i <? 24 then Z.testbit (in_payload b) i
    else if i <? 27 then Z.testbit (in_channel_nr b) (i - 24)
    else if i =? 27 then in_last b
    else false.
Proof.
  intros Hi. unfold w_data, connect_w_data.
  rewrite fifo_width_eq, bundle_channel_bits_eq. unfold SAMPLE_WIDTH.
  rewrite !testbit_assign_slice by lia.
  destruct (Z.eqb_spec i 27) as [-> | Hne].
  - cbn. destruct (in_last b); reflexivity.
  - destruct (Z.leb_spec (28 - 1) i), (Z.ltb_spec i 28); try lia; cbn [andb].
    + rewrite andb_false_r, !testbit_trunc by lia.
      destruct (Z.ltb_spec i 24), (Z.ltb_spec i 27), (Z.ltb_spec i 28);
        try lia; rewrite ?andb_false_r; reflexivity.
    + destruct (Z.leb_spec 24 i); cbn [andb].
      * rewrite testbit_trunc by lia.
        destruct (Z.ltb_spec i 24), (Z.ltb_spec i 27),
          (Z.ltb_spec (i - 24) 3); try lia; rewrite ?andb_true_r; reflexivity.
      * rewrite !testbit_trunc by lia.
        destruct (Z.ltb_spec i 24), (Z.ltb_spec i 28);
          try lia; rewrite ?andb_true_r; reflexivity.
Qed.

Lemma word_last_w_data b : word_last (w_data b) = in_last b.
Proof.
  unfold word_last. rewrite fifo_width_eq, testbit_w_data by lia. reflexivity.
Qed.

Lemma word_sample_w_data b :
  word_sample (w_data b) = trunc SAMPLE_WIDTH (in_payload b).
Proof.
  unfold word_sample, slice, SAMPLE_WIDTH. apply Z.bits_inj'. intros i Hi.
  rewrite !testbit_trunc, Z.shiftr_spec, testbit_w_data by lia.
  replace (i + 0) with i by lia.
  destruct (Z.ltb_spec i (24 - 0)), (Z.ltb_spec i 24); try lia;
    rewrite ?andb_false_r; reflexivity.
Qed.

Lemma word_channel_w_data b :
  word_channel (w_data b) = trunc _bundle_channel_bits (in_channel_nr b).
Proof.
  unfold word_channel, slice. rewrite bundle_channel_bits_eq. unfold SAMPLE_WIDTH.
  apply Z.bits_inj'. intros i Hi.
  rewrite !testbit_trunc, Z.shiftr_spec, testbit_w_data by lia.
  replace (i + 24 - 24) with i by lia.
  destruct (Z.ltb_spec i (24 + 3 - 24)), (Z.ltb_spec i 3),
    (Z.ltb_spec (i + 24) 24), (Z.ltb_spec (i + 24) 27); try lia;
    rewrite ?andb_false_r, ?andb_true_r; reflexivity.
Qed.

Lemma word_channel_range w : 0 <= word_channel w < NO_CHANNELS_ADAT.
Proof.
  unfold word_channel, slice. rewrite bundle_channel_bits_eq.
  unfold SAMPLE_WIDTH, NO_CHANNELS_ADAT.
  replace (24 + 3 - 24) with 3 by lia.
  change 8 with (2 ^ 3). apply trunc_range. lia.
Qed.

Lemma word_sample_range w : 0 <= word_sample w < 2 ^ SAMPLE_WIDTH.
Proof.
  unfold word_sample, slice, SAMPLE_WIDTH.
  replace (24 - 0) with 24 by lia. apply trunc_range. lia.
Qed.

(** ** Widths of the selector registers *)

Lemma range_width_spec n : 1 <= n -> 0 <= range_width n /\ n <= 2 ^ range_width n.
Proof.
  intros Hn. unfold range_width, bits_for, log2_int. cbn [Z.ltb Z.compare Z.opp].
  change (Z.log2_up 0 + 1) with 1.
  destruct (Z.ltb_spec 0 (n - 1)) as [Hpos | Hz].
  - replace (n - 1 + 1) with n by lia.
    pose proof (Z.log2_up_nonneg n) as Hnn.
    assert (Hle : n <= 2 ^ Z.log2_up n) by (apply Z.log2_up_spec; lia).
    split; [ lia | ].
    eapply Z.le_trans; [ exact Hle | ].
    apply Z.pow_le_mono_r; lia.
  - assert (n = 1) by lia. subst n. cbn. lia.
Qed.

Lemma mapi_length {A B} (f : nat -> A -> B) l i :
  length (mapi f i l) = length l.
Proof.
  revert i. induction l as [| x r IH]; intros i; cbn; [ | rewrite IH ];
    reflexivity.
Qed.

Lemma mapi_nth {A B} (f : nat -> A -> B) l i k da db :
  (k < length l)%nat -> nth k (mapi f i l) db = f (i + k)%nat (nth k l da).
Proof.
  revert i k. induction l as [| x r IH]; intros i k Hk; cbn in *; [ lia | ].
  destruct k as [| k].
  - rewrite Nat.add_0_r. reflexivity.
  - rewrite (IH (S i) k) by lia. f_equal. lia.
Qed.

Section Invariant.

Variable no_bundles : nat.
Hypothesis bundles_pos : (1 <= no_bundles)%nat.
Local Set Default Proof Using "All".

Local Notation "'N'" := (Z.of_nat no_bundles).

Lemma channel_bits_spec :
  0 <= _channel_bits no_bundles
  /\ N * NO_CHANNELS_ADAT <= 2 ^ _channel_bits no_bundles.
Proof. apply range_width_spec. unfold NO_CHANNELS_ADAT. lia. Qed.

Lemma bundle_index_bits_spec :
  0 <= bundle_index_bits no_bundles /\ N <= 2 ^ bundle_index_bits no_bundles.
Proof. apply range_width_spec. lia. Qed.

Lemma inv_reset : inv no_bundles (reset no_bundles).
Proof.
  unfold inv, reset. cbn. rewrite repeat_length. lia.
Qed.

Lemma selected_inv s :
  inv no_bundles s -> Z.of_nat (selected no_bundles s) = current_bundle s.
Proof.
  intros (_ & Hcb & _). unfold selected. lia.
Qed.

Lemma selected_lt s : (selected no_bundles s < no_bundles)%nat.
Proof. unfold selected. lia. Qed.

Lemma inv_step s inp : inv no_bundles s -> inv no_bundles (step no_bundles s inp).
Proof.
  intros (Hlen & Hcb & Hfbc).
  destruct channel_bits_spec as [Hc0 Hc], bundle_index_bits_spec as [Hb0 Hb].
  unfold inv, step, next_current_bundle, next_first_bundle_channel, last_bundle.
  cbn [fifos current_bundle first_bundle_channel].
  rewrite mapi_length. split; [ assumption | ].
  destruct (emit no_bundles s inp && bundle_last s (selected no_bundles s));
    [ | split; assumption ].
  destruct (Z.eqb_spec (current_bundle s) (N - 1)) as [Heq | Hne];
    [ lia | ].
  unfold NO_CHANNELS_ADAT in *.
  rewrite !trunc_small by lia. lia.
Qed.

Lemma inv_run ins : forall s, inv no_bundles s -> inv no_bundles (run no_bundles s ins).
Proof.
  induction ins as [| inp rest IH]; intros s Hs; cbn; [ assumption | ].
  apply IH, inv_step, Hs.
Qed.

Lemma reachable_inv s : reachable no_bundles s -> inv no_bundles s.
Proof. intros [ins ->]. apply inv_run, inv_reset. Qed.

End Invariant.

(** ** One tick *)

Section Tick.

Variable no_bundles : nat.
Hypothesis bundles_pos : (1 <= no_bundles)%nat.
Local Set Default Proof Using "All".

Local Notation "'N'" := (Z.of_nat no_bundles).

Lemma out_expected s inp :
  inv no_bundles s -> emit no_bundles s inp = true ->
  channel_stream_out no_bundles s inp =
    expected_out no_bundles (selected no_bundles s)
                 (Fifo.r_data (fifo s (selected no_bundles s))).
Proof.
  intros Hinv Hemit.
  pose proof (selected_inv no_bundles bundles_pos s Hinv) as Hsel.
  destruct Hinv as (Hlen & Hcb & Hfbc).
  destruct (channel_bits_spec no_bundles bundles_pos) as [Hc0 Hc].
  unfold channel_stream_out, expected_out. rewrite Hemit.
  unfold bundle_sample, bundle_channel, bundle_last, last_bundle.
  set (w := Fifo.r_data (fifo s (selected no_bundles s))).
  pose proof (word_channel_range w) as Hch.
  unfold NO_CHANNELS_ADAT in *.
  f_equal.
  - rewrite trunc_small by lia. lia.
  - f_equal.
    destruct (Z.eqb_spec (current_bundle s) 0),
      (Nat.eqb_spec (selected no_bundles s) 0); try reflexivity; lia.
  - f_equal.
    destruct (Z.eqb_spec (current_bundle s) (N - 1)),
      (Nat.eqb_spec (selected no_bundles s) (no_bundles - 1));
      try reflexivity; lia.
Qed.

Lemma selected_step s inp :
  inv no_bundles s ->
  selected no_bundles (step no_bundles s inp) =
    if emit no_bundles s inp && bundle_last s (selected no_bundles s)
    then next_bundle no_bundles (selected no_bundles s)
    else selected no_bundles s.
Proof.
  intros Hinv.
  pose proof (selected_inv no_bundles bundles_pos s Hinv) as Hsel.
  pose proof (inv_step no_bundles bundles_pos s inp Hinv) as Hinv'.
  pose proof (selected_inv no_bundles bundles_pos _ Hinv') as Hsel'.
  destruct Hinv as (Hlen & Hcb & Hfbc).
  destruct (bundle_index_bits_spec no_bundles bundles_pos) as [Hb0 Hb].
  apply Nat2Z.inj. rewrite Hsel'.
  unfold step, next_current_bundle, next_bundle, last_bundle.
  cbn [current_bundle].
  destruct (emit no_bundles s inp && bundle_last s (selected no_bundles s));
    [ | lia ].
  destruct (Z.eqb_spec (current_bundle s) (N - 1)),
    (Nat.eqb_spec (selected no_bundles s) (no_bundles - 1)); try lia.
  rewrite trunc_small by lia. lia.
Qed.

Lemma emitted_follows ins :
  forall s, inv no_bundles s ->
            follows no_bundles (selected no_bundles s)
                    (emitted no_bundles s ins).
Proof.
  induction ins as [| inp rest IH]; intros s Hinv; cbn [emitted];
    [ exact I | ].
  pose proof (IH _ (inv_step no_bundles bundles_pos s inp Hinv)) as Hrest.
  rewrite selected_step in Hrest by assumption.
  unfold tick_event.
  destruct (emit no_bundles s inp) eqn:Hemit; cbn [app andb] in *.
  - cbn [follows ev_bundle ev_out ev_word]. unfold frame_end. cbn [ev_word].
    split; [ reflexivity | ]. split; [ | exact Hrest ].
    apply out_expected; assumption.
  - exact Hrest.
Qed.

Lemma follows_reset ins :
  follows no_bundles 0%nat (emitted no_bundles (reset no_bundles) ins).
Proof.
  apply (emitted_follows ins (reset no_bundles)), inv_reset, bundles_pos.
Qed.

End Tick.

(** ** What goes into a FIFO comes out of it *)

Section Conservation.

Variable no_bundles : nat.

Lemma reads_app b l1 l2 : reads b (l1 ++ l2) = reads b l1 ++ reads b l2.
Proof. unfold reads. rewrite filter_app, map_app. reflexivity. Qed.

Lemma fifo_step s inp b :
  (b < length (fifos s))%nat ->
  fifo (step no_bundles s inp) b =
    Fifo.tick (fifo s b) (connect_w_en (bundles_in inp b))
              (w_data (bundles_in inp b)) (read_enable no_bundles s inp b).
Proof.
  intros Hb. unfold fifo, step. cbn [fifos].
  rewrite mapi_nth with (da := @nil Z) by assumption. reflexivity.
Qed.

Lemma step_length s inp :
  length (fifos (step no_bundles s inp)) = length (fifos s).
Proof. unfold step. cbn [fifos]. apply mapi_length. Qed.

Lemma run_length ins :
  forall s, length (fifos (run no_bundles s ins)) = length (fifos s).
Proof.
  induction ins as [| inp rest IH]; intros s; cbn; [ reflexivity | ].
  rewrite IH. apply step_length.
Qed.

Lemma conservation_step s inp b :
  (b < length (fifos s))%nat ->
  fifo s b ++ written s inp b =
    reads b (tick_event no_bundles s inp) ++ fifo (step no_bundles s inp) b.
Proof.
  intros Hb. rewrite fifo_step by assumption.
  unfold Fifo.tick, written, tick_event, read_enable, reads, Fifo.do_read.
  destruct (emit no_bundles s inp) eqn:Hemit; cbn [andb filter map app].
  - cbn [ev_bundle].
    destruct (Nat.eqb_spec b (selected no_bundles s)) as [-> | Hne].
    + rewrite Nat.eqb_refl. cbn [map ev_word app].
      unfold emit, bundle_ready in Hemit.
      destruct (fifo s (selected no_bundles s)) as [| w q];
        [ discriminate | ].
      cbn. reflexivity.
    + destruct (Nat.eqb_spec (selected no_bundles s) b); [ congruence | ].
      rewrite andb_false_r. reflexivity.
  - rewrite andb_false_r. reflexivity.
Qed.

Lemma conservation ins :
  forall s b,
    (b < length (fifos s))%nat ->
    fifo s b ++ writes no_bundles b s ins =
      reads b (emitted no_bundles s ins) ++ fifo (run no_bundles s ins) b.
Proof.
  induction ins as [| inp rest IH]; intros s b Hb; cbn [writes emitted run].
  - cbn. apply app_nil_r.
  - rewrite reads_app, app_assoc, conservation_step by assumption.
    rewrite <- !app_assoc. f_equal.
    apply IH. rewrite step_length. assumption.
Qed.

End Conservation.

(** ** Traces in round-robin order *)

Lemma frames_cons e l :
  frames (e :: l) = ((if frame_end e then 1 else 0) + frames l)%nat.
Proof. unfold frames. cbn [filter]. destruct (frame_end e); reflexivity. Qed.

Lemma frames_app l1 l2 : frames (l1 ++ l2) = (frames l1 + frames l2)%nat.
Proof. unfold frames. rewrite filter_app, length_app. reflexivity. Qed.

Section RoundRobin.

Variable no_bundles : nat.
Hypothesis bundles_pos : (1 <= no_bundles)%nat.
Local Set Default Proof Using "All".

Local Notation "'N'" := (Z.of_nat no_bundles).

Lemma next_bundle_lt b :
  (b < no_bundles)%nat -> (next_bundle no_bundles b < no_bundles)%nat.
Proof.
  intros Hb. unfold next_bundle.
  destruct (Nat.eqb_spec b (no_bundles - 1)); lia.
Qed.

Lemma next_bundle_mod b :
  (b < no_bundles)%nat ->
  next_bundle no_bundles b = (S b mod no_bundles)%nat.
Proof.
  intros Hb. unfold next_bundle.
  destruct (Nat.eqb_spec b (no_bundles - 1)) as [Heq | Hne].
  - replace (S b) with no_bundles by lia.
    rewrite Nat.Div0.mod_same. reflexivity.
  - rewrite Nat.mod_small by lia. reflexivity.
Qed.

Lemma bundle_after_lt l :
  forall b, (b < no_bundles)%nat ->
            (bundle_after no_bundles b l < no_bundles)%nat.
Proof.
  induction l as [| e r IH]; intros b Hb; cbn [bundle_after];
    [ assumption | ].
  apply IH. destruct (frame_end e); [ apply next_bundle_lt | ]; assumption.
Qed.

Lemma bundle_after_mod l :
  forall b, (b < no_bundles)%nat ->
            bundle_after no_bundles b l = ((b + frames l) mod no_bundles)%nat.
Proof.
  induction l as [| e r IH]; intros b Hb; cbn [bundle_after].
  - cbn. rewrite Nat.add_0_r, Nat.mod_small by assumption. reflexivity.
  - rewrite frames_cons. destruct (frame_end e).
    + rewrite IH by (apply next_bundle_lt; assumption).
      rewrite next_bundle_mod by assumption.
      rewrite Nat.Div0.add_mod_idemp_l. f_equal. lia.
    + rewrite IH by assumption. reflexivity.
Qed.

Lemma bundle_after_app l1 l2 b :
  bundle_after no_bundles b (l1 ++ l2) =
    bundle_after no_bundles (bundle_after no_bundles b l1) l2.
Proof.
  revert b. induction l1 as [| e r IH]; intros b; cbn [bundle_after app];
    [ reflexivity | apply IH ].
Qed.

Lemma follows_app l1 l2 :
  forall b, follows no_bundles b (l1 ++ l2) ->
            follows no_bundles b l1
            /\ follows no_bundles (bundle_after no_bundles b l1) l2.
Proof.
  induction l1 as [| e r IH]; intros b H; cbn [app follows bundle_after] in *.
  - split; [ exact I | assumption ].
  - destruct H as (Hb & Ho & Hr). destruct (IH _ Hr) as [H1 H2].
    repeat split; assumption.
Qed.

Lemma follows_at l1 e l2 b :
  follows no_bundles b (l1 ++ e :: l2) ->
  ev_bundle e = bundle_after no_bundles b l1
  /\ ev_out e = expected_out no_bundles (ev_bundle e) (ev_word e).
Proof.
  intros H. apply follows_app in H. destruct H as [_ H].
  cbn [follows] in H. destruct H as (Hb & Ho & _).
  rewrite Hb. split; [ reflexivity | assumption ].
Qed.

Lemma selected_run ins :
  forall s, inv no_bundles s ->
            selected no_bundles (run no_bundles s ins) =
              bundle_after no_bundles (selected no_bundles s)
                           (emitted no_bundles s ins).
Proof.
  induction ins as [| inp rest IH]; intros s Hinv; cbn [run emitted];
    [ reflexivity | ].
  rewrite bundle_after_app, IH by (apply inv_step; assumption).
  f_equal. rewrite selected_step by assumption.
  unfold tick_event. destruct (emit no_bundles s inp); cbn [andb].
  - cbn [bundle_after]. unfold frame_end. cbn [ev_word]. reflexivity.
  - reflexivity.
Qed.

End RoundRobin.

Lemma frames_done_cons b e l :
  frames_done b (e :: l) =
    ((if (ev_bundle e =? b)%nat && frame_end e then 1 else 0)
     + frames_done b l)%nat.
Proof.
  unfold frames_done. cbn [filter].
  destruct ((ev_bundle e =? b)%nat && frame_end e); reflexivity.
Qed.

Section Order.

Variable no_bundles : nat.
Hypothesis bundles_pos : (1 <= no_bundles)%nat.
Local Set Default Proof Using "All".

Lemma frames_done_order e q b1 p :
  forall b,
    (b < no_bundles)%nat ->
    follows no_bundles b (p ++ e :: q) ->
    (b1 < ev_bundle e)%nat ->
    (frames_done b1 p
     + (if (b1 <? b)%nat && (b <=? ev_bundle e)%nat then 1 else 0))%nat
    = S (frames_done (ev_bundle e) p).
Proof.
  induction p as [| e0 p IH]; intros b Hb Hf Hlt.
  - cbn [app follows] in Hf. destruct Hf as (He & _). rewrite He in *.
    unfold frames_done. cbn [filter length].
    destruct (Nat.ltb_spec b1 b), (Nat.leb_spec b b); cbn [andb]; lia.
  - assert (Hb2 : (ev_bundle e < no_bundles)%nat).
    { destruct (follows_at no_bundles bundles_pos _ _ _ _ Hf) as [-> _].
      apply bundle_after_lt; assumption. }
    cbn [app follows] in Hf. destruct Hf as (He0 & _ & Hr).
    rewrite !frames_done_cons, He0.
    destruct (frame_end e0).
    + pose proof (IH _ (next_bundle_lt no_bundles bundles_pos b Hb) Hr Hlt) as IH'.
      unfold next_bundle in IH'.
      destruct (Nat.eqb_spec b (no_bundles - 1)), (Nat.eqb_spec b b1),
        (Nat.eqb_spec b (ev_bundle e)), (Nat.ltb_spec b1 b),
        (Nat.leb_spec b (ev_bundle e)); cbn [andb] in *; try lia;
        destruct (Nat.ltb_spec b1 0), (Nat.leb_spec 0 (ev_bundle e)),
          (Nat.ltb_spec b1 (S b)), (Nat.leb_spec (S b) (ev_bundle e));
        cbn [andb] in *; lia.
    + pose proof (IH _ Hb Hr Hlt) as IH'.
      rewrite !andb_false_r. cbn. exact IH'.
Qed.

Lemma follows_adjacent p e1 e2 q b :
  follows no_bundles b (p ++ e1 :: e2 :: q) ->
  ev_bundle e2 =
    if frame_end e1 then next_bundle no_bundles (ev_bundle e1)
    else ev_bundle e1.
Proof.
  intros H. apply (follows_app no_bundles bundles_pos) in H. destruct H as [_ H].
  cbn [follows] in H. destruct H as (H1 & _ & H2 & _).
  rewrite H2, H1. reflexivity.
Qed.

End Order.

(** ** Buffers that accept framed words *)

Lemma framed_from_app l1 l2 :
  forall c, framed_from c (l1 ++ l2) = true -> framed_from c l1 = true.
Proof.
  induction l1 as [| w r IH]; intros c H; cbn [app framed_from] in *;
    [ reflexivity | ].
  apply andb_true_iff in H. destruct H as [H1 H2].
  rewrite H1. cbn [andb]. apply IH, H2.
Qed.

Lemma framed_from_cons c w r :
  framed_from c (w :: r) = true ->
  word_channel w = c
  /\ word_last w = (c =? NO_CHANNELS_ADAT - 1)
  /\ framed_from ((c + 1) mod NO_CHANNELS_ADAT) r = true.
Proof.
  cbn [framed_from]. intros H.
  apply andb_true_iff in H. destruct H as [H H3].
  apply andb_true_iff in H. destruct H as [H1 H2].
  apply Z.eqb_eq in H1. apply eqb_prop in H2. auto.
Qed.

Lemma reads_cons b e l :
  reads b (e :: l) =
    if (ev_bundle e =? b)%nat then ev_word e :: reads b l else reads b l.
Proof.
  unfold reads. cbn [filter]. destruct (ev_bundle e =? b)%nat; reflexivity.
Qed.

Lemma fifo_reset n b : fifo (reset n) b = [].
Proof.
  unfold fifo, reset. cbn [fifos].
  destruct (Nat.lt_ge_cases b n) as [Hlt | Hge].
  - apply nth_repeat_lt. assumption.
  - apply nth_overflow. rewrite repeat_length. assumption.
Qed.

Lemma valid_out n s inp : valid (channel_stream_out n s inp) = emit n s inp.
Proof.
  unfold channel_stream_out. destruct (emit n s inp); reflexivity.
Qed.

Lemma transferred_emitted n ins :
  forall s, transferred n s ins = map ev_out (emitted n s ins).
Proof.
  unfold transferred.
  induction ins as [| inp rest IH]; intros s; cbn [outputs emitted filter];
    [ reflexivity | ].
  rewrite map_app, <- IH, valid_out. unfold tick_event.
  destruct (emit n s inp); reflexivity.
Qed.

Section Framed.

Variable no_bundles : nat.
Hypothesis bundles_pos : (1 <= no_bundles)%nat.
Local Set Default Proof Using "All".

Lemma framed_reads ins b :
  accepted_framed no_bundles ins -> (b < no_bundles)%nat ->
  framed_from 0 (reads b (emitted no_bundles (reset no_bundles) ins)) = true.
Proof.
  intros Hwf Hb. specialize (Hwf b Hb).
  pose proof (conservation no_bundles ins (reset no_bundles) b) as Hc.
  rewrite fifo_reset in Hc. cbn [app] in Hc. rewrite Hc in Hwf.
  - eapply framed_from_app, Hwf.
  - unfold reset. cbn [fifos]. rewrite repeat_length. assumption.
Qed.

Lemma follows_numbered l :
  forall b pos,
    (b < no_bundles)%nat ->
    follows no_bundles b l ->
    framed_from pos (reads b l) = true ->
    (forall b', (b' < no_bundles)%nat -> b' <> b ->
                framed_from 0 (reads b' l) = true) ->
    numbered (Z.of_nat b * NO_CHANNELS_ADAT + pos) (map ev_out l).
Proof.
  induction l as [| e r IH]; intros b pos Hb Hf Hcur Hoth;
    cbn [map numbered]; [ exact I | ].
  cbn [follows] in Hf. destruct Hf as (Heb & Hout & Hr).
  rewrite reads_cons, Heb, Nat.eqb_refl in Hcur.
  apply framed_from_cons in Hcur. destruct Hcur as (Hch & Hlast & Hrest).
  assert (Hpos : 0 <= pos < NO_CHANNELS_ADAT)
    by (rewrite <- Hch; apply word_channel_range).
  assert (Hoth' : forall b', (b' < no_bundles)%nat -> b' <> b ->
                             framed_from 0 (reads b' r) = true).
  { intros b' Hb' Hne. specialize (Hoth b' Hb' Hne).
    rewrite reads_cons, Heb in Hoth.
    destruct (Nat.eqb_spec b b'); [ congruence | assumption ]. }
  rewrite Hout. unfold expected_out at 1 2. cbn [channel_nr last].
  split; [ rewrite Hch; reflexivity | ].
  unfold frame_end in Hr. rewrite Hlast in *.
  unfold NO_CHANNELS_ADAT in *.
  destruct (Z.eqb_spec pos (8 - 1)) as [Hp7 | Hp7]; cbn [andb].
  - replace ((pos + 1) mod 8) with 0 in Hrest
      by (rewrite Hp7; reflexivity).
    assert (Hall : forall b', (b' < no_bundles)%nat ->
                              framed_from 0 (reads b' r) = true).
    { intros b' Hb'. destruct (Nat.eq_dec b' b) as [-> | Hne];
        [ assumption | apply Hoth'; assumption ]. }
    pose proof (next_bundle_lt no_bundles bundles_pos b Hb) as Hnb.
    specialize (IH _ 0 Hnb Hr (Hall _ Hnb) (fun b' Hb' _ => Hall b' Hb')).
    unfold next_bundle in IH.
    destruct (Nat.eqb_spec b (no_bundles - 1)) as [Hlastb | Hlastb].
    + exact IH.
    + replace (Z.of_nat b * 8 + pos + 1) with (Z.of_nat (S b) * 8 + 0)
        by lia.
      exact IH.
  - replace ((pos + 1) mod 8) with (pos + 1) in Hrest
      by (rewrite Z.mod_small; lia).
    specialize (IH b (pos + 1) Hb Hr Hrest Hoth').
    replace (Z.of_nat b * 8 + pos + 1) with (Z.of_nat b * 8 + (pos + 1))
      by lia.
    exact IH.
Qed.

Lemma numbered_reset ins :
  accepted_framed no_bundles ins ->
  numbered 0 (transferred no_bundles (reset no_bundles) ins).
Proof.
  intros Hwf. rewrite transferred_emitted.
  apply (follows_numbered _ 0%nat 0).
  - lia.
  - apply follows_reset, bundles_pos.
  - apply framed_reads; [ assumption | lia ].
  - intros b' Hb' _. apply framed_reads; assumption.
Qed.

End Framed.

(** ** Inputs that differ in the first flags only *)

Lemma mapi_ext {A B} (f g : nat -> A -> B) l :
  (forall i x, f i x = g i x) -> forall i, mapi f i l = mapi g i l.
Proof.
  intros Hfg. induction l as [| x r IH]; intros i; cbn [mapi];
    [ reflexivity | ].
  rewrite Hfg, IH. reflexivity.
Qed.

Lemma w_data_same x y :
  in_payload x = in_payload y ->
  in_channel_nr x = in_channel_nr y ->
  in_last x = in_last y ->
  w_data x = w_data y.
Proof.
  intros Hp Hc Hl. unfold w_data, connect_w_data. rewrite Hp, Hc, Hl.
  reflexivity.
Qed.

Lemma same_but_first_tick n s i1 i2 :
  same_but_first i1 i2 ->
  channel_stream_out n s i1 = channel_stream_out n s i2
  /\ tick_event n s i1 = tick_event n s i2
  /\ step n s i1 = step n s i2.
Proof.
  intros [Hready Hb].
  assert (Hemit : emit n s i1 = emit n s i2)
    by (unfold emit; rewrite Hready; reflexivity).
  assert (Hout : channel_stream_out n s i1 = channel_stream_out n s i2)
    by (unfold channel_stream_out; rewrite Hemit; reflexivity).
  split; [ exact Hout | ]. split.
  - unfold tick_event. rewrite Hemit, Hout. reflexivity.
  - unfold step, next_current_bundle, next_first_bundle_channel.
    rewrite Hemit. f_equal.
    apply mapi_ext. intros i q.
    destruct (Hb i) as (Hv & Hp & Hc & Hl).
    unfold connect_w_en, read_enable.
    rewrite Hv, Hemit, (w_data_same _ _ Hp Hc Hl). reflexivity.
Qed.

(** ** The output of tick [k] *)

Lemma outputs_nth_error n ins :
  forall s k,
    nth_error (outputs n s ins) k =
      option_map (channel_stream_out n (run n s (firstn k ins)))
                 (nth_error ins k).
Proof.
  induction ins as [| inp rest IH]; intros s k.
  - destruct k; reflexivity.
  - destruct k as [| k]; cbn [outputs nth_error firstn run option_map];
      [ reflexivity | apply IH ].
Qed.

Lemma valid_ready n s inp :
  valid (channel_stream_out n s inp) = true -> out_ready inp = true.
Proof.
  rewrite valid_out. unfold emit. intros H.
  apply andb_true_iff in H. apply H.
Qed.

(** ** Every event of a round-robin trace carries its word *)

Lemma follows_In n (Hn : (1 <= n)%nat) l e b :
  follows n b l -> In e l ->
  ev_out e = expected_out n (ev_bundle e) (ev_word e).
Proof.
  intros Hf Hin. apply in_split in Hin. destruct Hin as (l1 & l2 & ->).
  apply (follows_at n Hn _ _ _ _ Hf).
Qed.

(** ** Ticks without emission *)

Section Stall.

Variable no_bundles : nat.
Hypothesis bundles_pos : (1 <= no_bundles)%nat.
Local Set Default Proof Using "All".

Lemma idle_tick s inp :
  emit no_bundles s inp = false ->
  channel_stream_out no_bundles s inp = idle_out
  /\ tick_event no_bundles s inp = []
  /\ selector (step no_bundles s inp) = selector s
  /\ selected no_bundles (step no_bundles s inp) = selected no_bundles s
  /\ forall b, (b < length (fifos s))%nat ->
               fifo (step no_bundles s inp) b = fifo s b ++ written s inp b.
Proof.
  intros Hemit.
  unfold channel_stream_out, tick_event, selector, selected, step,
    next_current_bundle, next_first_bundle_channel.
  cbn [current_bundle first_bundle_channel]. rewrite Hemit. cbn [andb].
  repeat split. intros b Hb.
  change (fifo (step no_bundles s inp) b = fifo s b ++ written s inp b).
  rewrite fifo_step by assumption.
  unfold Fifo.tick, Fifo.do_read, read_enable, written.
  rewrite Hemit, andb_false_r. reflexivity.
Qed.

Lemma stalled_run stall :
  Forall (fun i => out_ready i = false) stall ->
  forall s,
    outputs no_bundles s stall = repeat idle_out (length stall)
    /\ emitted no_bundles s stall = []
    /\ selector (run no_bundles s stall) = selector s
    /\ selected no_bundles (run no_bundles s stall) = selected no_bundles s
    /\ forall b, (b < length (fifos s))%nat ->
                 fifo (run no_bundles s stall) b =
                   fifo s b ++ writes no_bundles b s stall.
Proof.
  induction 1 as [| inp rest Hready Hrest IH]; intros s;
    cbn [outputs emitted run writes length repeat].
  - repeat split. intros b _. symmetry. apply app_nil_r.
  - assert (Hemit : emit no_bundles s inp = false)
      by (unfold emit; rewrite Hready; apply andb_false_r).
    destruct (idle_tick s inp Hemit) as (Ho & He & Hs & Hsel & Hq).
    destruct (IH (step no_bundles s inp)) as (Ho' & He' & Hs' & Hsel' & Hq').
    rewrite Ho, Ho', He, He', Hs', Hs, Hsel', Hsel.
    repeat split. intros b Hb.
    rewrite Hq', Hq, app_assoc by (rewrite ?step_length; assumption).
    reflexivity.
Qed.

End Stall.

(** ** Numbered outputs *)

Lemma numbered_after_last p o q :
  forall c, numbered c (p ++ o :: q) -> last o = true -> numbered 0 q.
Proof.
  induction p as [| x r IH]; intros c H Hlast; cbn [app numbered] in H.
  - destruct H as [_ H]. rewrite Hlast in H. exact H.
  - destruct H as [_ H]. exact (IH _ H Hlast).
Qed.

Lemma numbered_adjacent p o1 o2 q :
  forall c, numbered c (p ++ o1 :: o2 :: q) ->
            channel_nr o2 = if last o1 then 0 else channel_nr o1 + 1.
Proof.
  induction p as [| x r IH]; intros c H; cbn [app numbered] in H.
  - destruct H as (H1 & H2 & _). rewrite H2, H1. reflexivity.
  - destruct H as [_ H]. exact (IH _ H).
Qed.

Lemma numbered_positive m z rest :
  forall c, 1 <= c ->
            numbered c (m ++ z :: rest) ->
            Forall (fun o => last o = false) m ->
            Forall (fun o => 1 <= channel_nr o) (m ++ [z]).
Proof.
  induction m as [| x r IH]; intros c Hc H Hno; cbn [app numbered] in *.
  - destruct H as [H _]. constructor; [ lia | constructor ].
  - destruct H as [Hx H]. inversion Hno as [| ? ? Hlx Hr]; subst.
    rewrite Hlx in H. constructor; [ lia | ].
    apply (IH (channel_nr x + 1)); [ lia | assumption | assumption ].
Qed.

Lemma first_expected n b w :
  first (expected_out n b w) = (channel_nr (expected_out n b w) =? 0).
Proof.
  unfold expected_out. cbn [first channel_nr].
  pose proof (word_channel_range w) as Hch. unfold NO_CHANNELS_ADAT in *.
  destruct (Nat.eqb_spec b 0), (Z.eqb_spec (word_channel w) 0),
    (Z.eqb_spec (Z.of_nat b * 8 + word_channel w) 0);
    cbn [andb]; try reflexivity; lia.
Qed.

Lemma framed_from_In w l :
  forall c, framed_from c l = true -> In w l ->
            word_last w = (word_channel w =? NO_CHANNELS_ADAT - 1).
Proof.
  induction l as [| x r IH]; intros c H Hin; [ destruct Hin | ].
  apply framed_from_cons in H. destruct H as (Hch & Hlast & Hr).
  destruct Hin as [<- | Hin].
  - rewrite Hlast, Hch. reflexivity.
  - exact (IH _ Hr Hin).
Qed.

Lemma snoc_cases {A} (l : list A) :
  l = [] \/ exists body z, l = body ++ [z] /\ rev l = z :: rev body.
Proof.
  destruct (rev l) as [| z r] eqn:Hrev.
  - left. apply (f_equal (@rev A)) in Hrev. rewrite rev_involutive in Hrev.
    exact Hrev.
  - right. exists (rev r), z.
    apply (f_equal (@rev A)) in Hrev. rewrite rev_involutive in Hrev.
    cbn [rev] in Hrev. rewrite rev_involutive. split; [ exact Hrev | reflexivity ].
Qed.

(** ** Full rounds *)

Section Rounds.

Variable no_bundles : nat.
Hypothesis bundles_pos : (1 <= no_bundles)%nat.
Local Set Default Proof Using "All".

Lemma last_expected b w :
  last (expected_out no_bundles b w) =
    word_last w && (b =? no_bundles - 1)%nat.
Proof. reflexivity. Qed.

(** The event that completes the frames of a round carries the last
    flag. *)
Lemma round_end p z q k :
  follows no_bundles 0 (p ++ z :: q) ->
  frame_end z = true ->
  frames (p ++ [z]) = (k * no_bundles)%nat ->
  last (ev_out z) = true.
Proof.
  intros Hf Hz Hfr.
  destruct (follows_at no_bundles bundles_pos _ _ _ _ Hf) as [Hb Ho].
  rewrite Ho, last_expected. fold (frame_end z). rewrite Hz. cbn [andb].
  apply Nat.eqb_eq. rewrite Hb, bundle_after_mod by lia. cbn [Nat.add].
  rewrite frames_app, frames_cons, Hz in Hfr. cbn in Hfr.
  destruct k as [| k]; [ lia | ].
  replace (frames p) with (no_bundles - 1 + k * no_bundles)%nat by lia.
  rewrite Nat.Div0.mod_add, Nat.mod_small by lia. reflexivity.
Qed.

(** Before the frames of a round are complete no event carries the last
    flag. *)
Lemma round_inside p e q :
  follows no_bundles 0 (p ++ e :: q) ->
  (frames (p ++ [e]) < no_bundles)%nat ->
  last (ev_out e) = false.
Proof.
  intros Hf Hfr.
  destruct (follows_at no_bundles bundles_pos _ _ _ _ Hf) as [Hb Ho].
  rewrite Ho, last_expected. fold (frame_end e).
  destruct (frame_end e) eqn:He; [ | reflexivity ]. cbn [andb].
  rewrite frames_app, frames_cons, He in Hfr. cbn in Hfr.
  apply Nat.eqb_neq. rewrite Hb, bundle_after_mod by lia. cbn [Nat.add].
  rewrite Nat.mod_small by lia. lia.
Qed.

Lemma follows_round_start pre rest :
  follows no_bundles 0 (pre ++ rest) ->
  (frames pre mod no_bundles)%nat = 0%nat ->
  follows no_bundles 0 rest.
Proof.
  intros Hf Hmod. apply (follows_app no_bundles bundles_pos) in Hf.
  destruct Hf as [_ Hf].
  rewrite bundle_after_mod in Hf by lia. cbn [Nat.add] in Hf.
  rewrite Hmod in Hf. exact Hf.
Qed.

Lemma round_last_flags pre body z post :
  follows no_bundles 0 (pre ++ (body ++ [z]) ++ post) ->
  (frames pre mod no_bundles)%nat = 0%nat ->
  frame_end z = true ->
  frames (body ++ [z]) = no_bundles ->
  last (ev_out z) = true
  /\ Forall (fun e => last (ev_out e) = false) body.
Proof.
  intros Hf Hmod Hz Hfr.
  apply follows_round_start in Hf; [ | assumption ].
  rewrite <- app_assoc in Hf. cbn [app] in Hf. split.
  - apply (round_end body z post 1); [ assumption | assumption | lia ].
  - apply Forall_forall. intros e Hin.
    apply in_split in Hin. destruct Hin as (b1 & b2 & ->).
    rewrite <- app_assoc in Hf. cbn [app] in Hf.
    apply (round_inside b1 e _ Hf).
    rewrite !frames_app, !frames_cons, Hz in Hfr.
    rewrite frames_app, frames_cons. cbn in *. lia.
Qed.

(** A trace of complete rounds is empty or ends with the last flag. *)
Lemma rounds_end_with_last pre rest :
  follows no_bundles 0 (pre ++ rest) ->
  frame_boundary pre = true ->
  (frames pre mod no_bundles)%nat = 0%nat ->
  pre = [] \/ exists p z, pre = p ++ [z] /\ last (ev_out z) = true.
Proof.
  intros Hf Hb Hmod. unfold frame_boundary in Hb.
  destruct (snoc_cases pre) as [-> | (p & z & -> & Hrev)];
    [ left; reflexivity | right ].
  rewrite Hrev in Hb. exists p, z. split; [ reflexivity | ].
  rewrite <- app_assoc in Hf. cbn [app] in Hf.
  apply Nat.Div0.div_exact in Hmod.
  apply (round_end p z rest (frames (p ++ [z]) / no_bundles));
    [ assumption | assumption | lia ].
Qed.

End Rounds.

(** ** Full rounds of framed words *)

Lemma reads_In e l : In e l -> In (ev_word e) (reads (ev_bundle e) l).
Proof.
  intros Hin. unfold reads. apply in_map, filter_In.
  split; [ assumption | apply Nat.eqb_refl ].
Qed.

Section FramedRounds.

Variable no_bundles : nat.
Hypothesis bundles_pos : (1 <= no_bundles)%nat.
Local Set Default Proof Using "All".

Lemma framed_word ins e :
  accepted_framed no_bundles ins ->
  In e (emitted no_bundles (reset no_bundles) ins) ->
  frame_end e = (word_channel (ev_word e) =? NO_CHANNELS_ADAT - 1).
Proof.
  intros Hwf Hin.
  assert (Hb : (ev_bundle e < no_bundles)%nat).
  { pose proof (follows_reset no_bundles bundles_pos ins) as Hf.
    apply in_split in Hin. destruct Hin as (l1 & l2 & Heq).
    rewrite Heq in Hf.
    destruct (follows_at no_bundles bundles_pos _ _ _ _ Hf) as [-> _].
    apply bundle_after_lt; [ assumption | lia ]. }
  apply (framed_from_In _ _ 0 (framed_reads no_bundles bundles_pos
                                            ins _ Hwf Hb)).
  apply reads_In, Hin.
Qed.

Lemma first_of_event ins e :
  In e (emitted no_bundles (reset no_bundles) ins) ->
  first (ev_out e) = (channel_nr (ev_out e) =? 0).
Proof.
  intros Hin.
  rewrite (follows_In no_bundles bundles_pos _ e _
                      (follows_reset no_bundles bundles_pos ins) Hin).
  apply first_expected.
Qed.

End FramedRounds.

(** ** The frame that opens a round *)

Lemma frame_boundary_app a l :
  l <> [] -> frame_boundary (a ++ l) = frame_boundary l.
Proof.
  intros Hl. unfold frame_boundary. rewrite rev_app_distr.
  destruct (snoc_cases l) as [-> | (body & z & _ & ->)];
    [ contradiction | reflexivity ].
Qed.

Lemma boundary_frames l :
  l <> [] -> frame_boundary l = true -> (1 <= frames l)%nat.
Proof.
  intros Hl Hb. unfold frame_boundary in Hb.
  destruct (snoc_cases l) as [-> | (body & z & -> & Hrev)];
    [ contradiction | ].
  rewrite Hrev in Hb. rewrite frames_app, frames_cons, Hb. lia.
Qed.

Lemma reads_own b l :
  Forall (fun e => ev_bundle e = b) l -> reads b l = map ev_word l.
Proof.
  induction 1 as [| e r He Hr IH]; [ reflexivity | ].
  rewrite reads_cons, He, Nat.eqb_refl, IH. reflexivity.
Qed.

Lemma reads_other b l :
  Forall (fun e => ev_bundle e <> b) l -> reads b l = [].
Proof.
  induction 1 as [| e r He Hr IH]; [ reflexivity | ].
  rewrite reads_cons, IH. destruct (Nat.eqb_spec (ev_bundle e) b);
    [ contradiction | reflexivity ].
Qed.

Lemma count_first l :
  Forall (fun e => first (ev_out e)
                   = (ev_bundle e =? 0)%nat && (word_channel (ev_word e) =? 0))
         l ->
  length (filter (fun e => first (ev_out e)) l)
  = length (filter (fun w => word_channel w =? 0) (reads 0 l)).
Proof.
  induction 1 as [| e r He Hr IH]; [ reflexivity | ].
  rewrite reads_cons. cbn [filter]. rewrite He.
  destruct (ev_bundle e =? 0)%nat; cbn [andb filter].
  - destruct (word_channel (ev_word e) =? 0); cbn [length]; rewrite IH;
      reflexivity.
  - exact IH.
Qed.

(** In a frame whose words are framed from sub-channel [c >= 1] on, no
    word carries sub-channel 0. *)
Lemma framed_frame_nonzero ws z :
  forall c,
    1 <= c < NO_CHANNELS_ADAT ->
    framed_from c (ws ++ [z]) = true ->
    Forall (fun w => word_last w = false) ws ->
    Forall (fun w => word_channel w <> 0) (ws ++ [z]).
Proof.
  unfold NO_CHANNELS_ADAT.
  induction ws as [| w r IH]; intros c Hc Hf Hno; cbn [app] in *.
  - apply framed_from_cons in Hf. destruct Hf as (Hch & _ & _).
    constructor; [ lia | constructor ].
  - apply framed_from_cons in Hf. destruct Hf as (Hch & Hlast & Hr).
    inversion Hno as [| ? ? Hw Hno']; subst.
    rewrite Hw in Hlast. symmetry in Hlast. apply Z.eqb_neq in Hlast.
    unfold NO_CHANNELS_ADAT in *.
    constructor; [ lia | ].
    apply (IH (word_channel w + 1)); [ lia | | assumption ].
    rewrite Z.mod_small in Hr by lia. exact Hr.
Qed.

Section OpeningFrame.

Variable no_bundles : nat.
Hypothesis bundles_pos : (1 <= no_bundles)%nat.
Local Set Default Proof Using "All".

Lemma first_frame l :
  forall b,
    follows no_bundles b l ->
    (1 <= frames l)%nat ->
    exists f0 z0 rest,
      l = f0 ++ z0 :: rest
      /\ Forall (fun e => ev_bundle e = b /\ frame_end e = false) f0
      /\ ev_bundle z0 = b
      /\ frame_end z0 = true
      /\ follows no_bundles (next_bundle no_bundles b) rest.
Proof.
  induction l as [| e r IH]; intros b Hf Hfr.
  - cbn in Hfr. lia.
  - cbn [follows] in Hf. destruct Hf as (Hb & _ & Hr).
    rewrite frames_cons in Hfr.
    destruct (frame_end e) eqn:He.
    + exists [], e, r. cbn [app]. repeat split; try assumption. constructor.
    + destruct (IH b Hr) as (f0 & z0 & rest & -> & Hf0 & Hz0 & Hez0 & Hrest);
        [ cbn in Hfr; lia | ].
      exists (e :: f0), z0, rest. cbn [app].
      repeat split; try assumption. constructor; [ split | ]; assumption.
Qed.

(** After the frame of bundle 0, the events of a full round are those of
    the other bundles. *)
Lemma round_tail_other rest :
  follows no_bundles (next_bundle no_bundles 0) rest ->
  frames rest = (no_bundles - 1)%nat ->
  (rest <> [] -> frame_boundary rest = true) ->
  Forall (fun e => ev_bundle e <> 0%nat) rest.
Proof.
  intros Hf Hfr Hbd. apply Forall_forall. intros e Hin.
  apply in_split in Hin. destruct Hin as (r1 & r2 & Heq). subst rest.
  assert (Hne : r1 ++ e :: r2 <> []) by (destruct r1; discriminate).
  specialize (Hbd Hne).
  rewrite frame_boundary_app in Hbd by discriminate.
  pose proof (boundary_frames (e :: r2) ltac:(discriminate) Hbd) as H1.
  rewrite frames_app in Hfr.
  destruct (follows_at no_bundles bundles_pos _ _ _ _ Hf) as [-> _].
  assert (Hnb : (next_bundle no_bundles 0 < no_bundles)%nat)
    by (apply next_bundle_lt; lia).
  rewrite bundle_after_mod by assumption.
  unfold next_bundle in *.
  destruct (Nat.eqb_spec 0 (no_bundles - 1)); [ lia | ].
  rewrite Nat.mod_small by lia. lia.
Qed.

Lemma opening_frame seg post :
  follows no_bundles 0 (seg ++ post) ->
  seg <> [] ->
  frame_boundary seg = true ->
  frames seg = no_bundles ->
  exists f0 z0 rest,
    seg = f0 ++ z0 :: rest
    /\ Forall (fun e => ev_bundle e = 0%nat /\ frame_end e = false) f0
    /\ ev_bundle z0 = 0%nat
    /\ frame_end z0 = true
    /\ Forall (fun e => ev_bundle e <> 0%nat) rest.
Proof.
  intros Hf Hne Hbd Hfr.
  apply (follows_app no_bundles bundles_pos) in Hf. destruct Hf as [Hf _].
  destruct (first_frame seg 0%nat Hf) as (f0 & z0 & rest & -> & Hf0 & Hz0 & Hez0 & Hrest);
    [ lia | ].
  exists f0, z0, rest. repeat split; try assumption.
  apply round_tail_other; [ assumption | | ].
  - rewrite frames_app, frames_cons, Hez0 in Hfr.
    assert (H0 : frames f0 = 0%nat).
    { clear - Hf0. induction Hf0 as [| e r [_ He] Hr IH]; [ reflexivity | ].
      rewrite frames_cons, He, IH. reflexivity. }
    lia.
  - intros Hr. rewrite <- Hbd.
    change (f0 ++ z0 :: rest) with (f0 ++ [z0] ++ rest).
    rewrite app_assoc. symmetry. apply frame_boundary_app. exact Hr.
Qed.

End OpeningFrame.

(** ** What the consumer sees of a bundle *)


(** ** The example of the test *)

(** With ready held high, the four frames of the test come out as 32
    events numbered 0 to 31, first set on the first and last on the
    final one. *)
Lemma test_smoke_output :
  map (fun o => (payload o, channel_nr o, first o, last o))
      (transferred 4 (reset 4) BundleMultiplexerTest.test_smoke)
  = map (fun k => (Z.shiftl (k / 8) 8 + k mod 8, k, k =? 0, k =? 31))
        (map Z.of_nat (seq 0 32)).
Proof. vm_compute. reflexivity. Qed.

(** * The claims *)

Import BundleMultiplexerTest.


(** The words the FIFOs accept in the test are framed. *)
Lemma test_smoke_accepted_framed : accepted_framed 4 test_smoke.
Proof.
  intros b Hb.
  destruct b as [| [| [| [| b]]]]; [ | | | | lia ]; vm_compute; reflexivity.
Qed.

(** C1. Strict index order.  Only the selected bundle is ever read.  While
    the selected bundle's buffer is empty nothing is emitted, no buffer is
    read and the selector stays, whatever the other buffers hold.  An
    event that does not end a frame is followed by an event of the same
    bundle, an event that ends a frame by an event of the next bundle of
    the round.  And whenever an event of a bundle is emitted, every bundle
    of lower index has completed one frame more than that bundle has: its
    frame of the current round is out in full. *)
Theorem drained_in_index_order (no_bundles : nat) :
  (1 <= no_bundles)%nat ->
  (forall s inp i,
     reachable no_bundles s ->
     read_enable no_bundles s inp i = true ->
     Z.of_nat i = current_bundle s)
  /\ (forall s inp,
        bundle_ready s (selected no_bundles s) = false ->
        channel_stream_out no_bundles s inp = idle_out
        /\ (forall i, read_enable no_bundles s inp i = false)
        /\ selector (step no_bundles s inp) = selector s)
  /\ (forall s ins p e1 e2 q,
        reachable no_bundles s ->
        emitted no_bundles s ins = p ++ e1 :: e2 :: q ->
        ev_bundle e2 =
          if frame_end e1 then next_bundle no_bundles (ev_bundle e1)
          else ev_bundle e1)
  /\ (forall ins p e q b1,
        emitted no_bundles (reset no_bundles) ins = p ++ e :: q ->
        (b1 < ev_bundle e)%nat ->
        frames_done b1 p = S (frames_done (ev_bundle e) p)).
Proof.
  intros Hn. split; [ | split; [ | split ] ].
  - intros s inp i Hreach Hre.
    unfold read_enable in Hre. apply andb_true_iff in Hre.
    destruct Hre as [_ Hi]. apply Nat.eqb_eq in Hi. subst i.
    apply selected_inv; [ assumption | ].
    apply reachable_inv; assumption.
  - intros s inp Hempty.
    assert (Hemit : emit no_bundles s inp = false)
      by (unfold emit; rewrite Hempty; reflexivity).
    unfold channel_stream_out, read_enable, selector, step,
      next_current_bundle, next_first_bundle_channel.
    cbn [current_bundle first_bundle_channel]. rewrite Hemit.
    repeat split.
  - intros s ins p e1 e2 q Hreach Heq.
    pose proof (emitted_follows no_bundles Hn ins s
                  (reachable_inv no_bundles Hn s Hreach)) as Hf.
    rewrite Heq in Hf.
    exact (follows_adjacent no_bundles Hn _ _ _ _ _ Hf).
  - intros ins p e q b1 Heq Hlt.
    pose proof (follows_reset no_bundles Hn ins) as Hf. rewrite Heq in Hf.
    pose proof (frames_done_order no_bundles Hn e q b1 p 0%nat Hn Hf Hlt)
      as H.
    cbn [Nat.ltb Nat.leb andb] in H. lia.
Qed.

Lemma drained_in_index_order_witness :
  let l := emitted 4 (reset 4) test_smoke in
  frames_done 0 (firstn 10 l)
  = S (frames_done (ev_bundle (nth 10 l (mk_event 0 0 idle_out)))
                   (firstn 10 l)).
Proof.
  intros l.
  refine (proj2 (proj2 (proj2 (drained_in_index_order 4 _)))
                test_smoke (firstn 10 l) _ (skipn 11 l) 0%nat _ _).
  - lia.
  - vm_compute. reflexivity.
  - vm_compute. lia.
Defined.

(** C2. Channel numbering: the channel number of every emitted output
    event is the channel base plus the sub-channel index of the consumed
    event, which is the selected bundle index times the number of channels
    per bundle plus the sub-channel index; the bundle index, the
    sub-channel index and the channel number are in range. *)
Theorem channel_numbering (no_bundles : nat) (s : state) (inp : inputs) :
  (1 <= no_bundles)%nat ->
  reachable no_bundles s ->
  valid (channel_stream_out no_bundles s inp) = true ->
  let b := current_bundle s in
  let ch := bundle_channel s (selected no_bundles s) in
  let o := channel_stream_out no_bundles s inp in
  channel_nr o = first_bundle_channel s + ch
  /\ channel_nr o = b * NO_CHANNELS_ADAT + ch
  /\ Z.of_nat (selected no_bundles s) = b
  /\ 0 <= b < Z.of_nat no_bundles
  /\ 0 <= ch < NO_CHANNELS_ADAT
  /\ 0 <= channel_nr o < Z.of_nat no_bundles * NO_CHANNELS_ADAT.
Proof.
  intros Hn Hreach Hvalid b ch o.
  pose proof (reachable_inv no_bundles Hn s Hreach) as Hinv.
  rewrite valid_out in Hvalid.
  pose proof (out_expected no_bundles Hn s inp Hinv Hvalid) as Hout.
  pose proof (selected_inv no_bundles Hn s Hinv) as Hsel.
  pose proof (word_channel_range
                (Fifo.r_data (fifo s (selected no_bundles s)))) as Hch.
  destruct Hinv as (_ & Hcb & Hfbc).
  subst o. rewrite Hout. unfold expected_out. cbn [channel_nr].
  fold (bundle_channel s (selected no_bundles s)) in *. fold ch in Hch |- *.
  fold b in Hcb, Hfbc, Hsel. unfold NO_CHANNELS_ADAT in *.
  repeat split; lia.
Qed.

Lemma channel_numbering_witness :
  channel_nr (channel_stream_out
                4 (run 4 (reset 4) (firstn 12 test_smoke))
                (nth 12 test_smoke undriven))
  = 1 * NO_CHANNELS_ADAT + 1.
Proof.
  refine (proj1 (proj2 (channel_numbering 4 _ _ _ _ _))).
  - lia.
  - exists (firstn 12 test_smoke). reflexivity.
  - reflexivity.
Defined.

(** C3. Selector invariant: the selector starts at (0, 0); in every
    reachable state the channel base is the selected bundle index times
    the number of channels per bundle; and consuming the last sub-channel
    of the last bundle puts the selector back to (0, 0). *)
Theorem selector_invariant (no_bundles : nat) :
  (1 <= no_bundles)%nat ->
  selector (reset no_bundles) = (0, 0)
  /\ (forall s,
        reachable no_bundles s ->
        first_bundle_channel s = current_bundle s * NO_CHANNELS_ADAT)
  /\ (forall s inp,
        emit no_bundles s inp = true ->
        bundle_last s (selected no_bundles s) = true ->
        current_bundle s = last_bundle no_bundles ->
        selector (step no_bundles s inp) = (0, 0)).
Proof.
  intros Hn. split; [ reflexivity | ]. split.
  - intros s Hreach. apply (reachable_inv no_bundles Hn s Hreach).
  - intros s inp Hemit Hlast Hcb.
    unfold selector, step, next_current_bundle, next_first_bundle_channel.
    cbn [current_bundle first_bundle_channel].
    rewrite Hemit, Hlast, Hcb, Z.eqb_refl. reflexivity.
Qed.

Lemma selector_invariant_witness :
  first_bundle_channel (run 4 (reset 4) (firstn 12 test_smoke))
  = current_bundle (run 4 (reset 4) (firstn 12 test_smoke)) * NO_CHANNELS_ADAT.
Proof.
  refine (proj1 (proj2 (selector_invariant 4 _)) _ _).
  - lia.
  - exists (firstn 12 test_smoke). reflexivity.
Defined.

(** C4. Selector transition: on a consumed event with the last flag the
    selector goes to (0, 0) from the last bundle and to the next bundle,
    with the channel base raised by the number of channels per bundle,
    from any other; on a consumed event without the last flag it keeps its
    value; after full rounds, of as many frames as there are bundles, it
    is back at (0, 0).  This holds in every state that satisfies the
    invariant of the registers, reachable states among them. *)
Theorem selector_transition (no_bundles : nat) :
  (1 <= no_bundles)%nat ->
  (forall s inp,
     inv no_bundles s ->
     emit no_bundles s inp = true ->
     selector (step no_bundles s inp) =
       if bundle_last s (selected no_bundles s)
       then if current_bundle s =? last_bundle no_bundles
            then (0, 0)
            else (current_bundle s + 1,
                  first_bundle_channel s + NO_CHANNELS_ADAT)
       else selector s)
  /\ (forall s, reachable no_bundles s -> inv no_bundles s)
  /\ (forall s ins k,
        inv no_bundles s ->
        selector s = (0, 0) ->
        frames (emitted no_bundles s ins) = (k * no_bundles)%nat ->
        selector (run no_bundles s ins) = (0, 0)).
Proof.
  intros Hn. split; [ | split ].
  - intros s inp (_ & Hcb & Hfbc) Hemit.
    destruct (channel_bits_spec no_bundles Hn) as [Hc0 Hc].
    destruct (bundle_index_bits_spec no_bundles Hn) as [Hb0 Hb].
    unfold selector, step, next_current_bundle, next_first_bundle_channel.
    cbn [current_bundle first_bundle_channel]. rewrite Hemit. cbn [andb].
    destruct (bundle_last s (selected no_bundles s)); [ | reflexivity ].
    unfold last_bundle.
    destruct (Z.eqb_spec (current_bundle s) (Z.of_nat no_bundles - 1));
      [ reflexivity | ].
    unfold NO_CHANNELS_ADAT in *. rewrite !trunc_small by lia. reflexivity.
  - intros s Hreach. apply reachable_inv; assumption.
  - intros s ins k Hinv Hsel Hframes.
    pose proof (inv_run no_bundles Hn ins s Hinv) as Hinv'.
    pose proof (selected_inv no_bundles Hn _ Hinv') as Hsel'.
    pose proof (selected_inv no_bundles Hn _ Hinv) as Hsel0.
    rewrite selected_run in Hsel' by assumption.
    injection Hsel as Hcb0 _. rewrite Hcb0 in Hsel0.
    replace (selected no_bundles s) with 0%nat in Hsel' by lia.
    rewrite bundle_after_mod, Hframes in Hsel' by lia.
    cbn [Nat.add] in Hsel'. rewrite Nat.Div0.mod_mul in Hsel'.
    destruct Hinv' as (_ & _ & Hfbc). unfold selector.
    rewrite Hfbc, <- Hsel'. reflexivity.
Qed.

(** The tick of the test on which the last sample of bundle 0 is consumed
    moves the selector from (0, 0) to (1, 8). *)
Lemma selector_transition_witness :
  let s := run 4 (reset 4) (firstn 10 test_smoke) in
  let inp := nth 10 test_smoke undriven in
  selector s = (0, 0)
  /\ emit 4 s inp = true
  /\ bundle_last s (selected 4 s) = true
  /\ selector (step 4 s inp) = (1, 8).
Proof.
  intros s inp.
  assert (Hinv : inv 4 s).
  { unfold inv. split; [ vm_compute; reflexivity | ].
    split; [ | vm_compute; reflexivity ].
    vm_compute. split; [ discriminate | reflexivity ]. }
  assert (Hemit : emit 4 s inp = true) by (vm_compute; reflexivity).
  split; [ vm_compute; reflexivity | ]. split; [ exact Hemit | ].
  split; [ vm_compute; reflexivity | ].
  rewrite (proj1 (selector_transition 4 ltac:(lia)) s inp Hinv Hemit).
  vm_compute. reflexivity.
Defined.

(** C5, as amended.  On every emitted output event first is set exactly
    when the selected bundle is bundle 0 and the sub-channel index of the
    consumed event is 0, and last is set exactly when the selected bundle
    is the last one and the last flag of the consumed event is set.  In
    each full round exactly one event has last set, the final one.  The
    round opens with the one frame of bundle 0 it holds, and the events
    with first set are the events of that frame whose sub-channel index
    is 0: there are as many of them as the frame, as bundle 0's buffer
    accepted it, has words with sub-channel 0, so exactly one exactly when
    it has one.  When that frame carries the sub-channels in the order 0
    to 7, with last on sub-channel 7 exactly, the event with first set is
    the first of the round and every other event has first clear. *)
Theorem frame_markers (no_bundles : nat) :
  (1 <= no_bundles)%nat ->
  (forall s inp,
     valid (channel_stream_out no_bundles s inp) = true ->
     first (channel_stream_out no_bundles s inp) =
       (current_bundle s =? 0) && (bundle_channel s (selected no_bundles s) =? 0)
     /\ last (channel_stream_out no_bundles s inp) =
          (current_bundle s =? last_bundle no_bundles)
          && bundle_last s (selected no_bundles s))
  /\ (forall ins pre seg post,
        emitted no_bundles (reset no_bundles) ins = pre ++ seg ++ post ->
        full_round no_bundles pre seg = true ->
        (exists body z,
            seg = body ++ [z]
            /\ last (ev_out z) = true
            /\ Forall (fun e => last (ev_out e) = false) body)
        /\ (exists f0 z0 rest,
               seg = f0 ++ z0 :: rest
               /\ Forall (fun e => ev_bundle e = 0%nat /\ frame_end e = false)
                         f0
               /\ ev_bundle z0 = 0%nat
               /\ frame_end z0 = true
               /\ Forall (fun e => ev_bundle e <> 0%nat
                                   /\ first (ev_out e) = false) rest
               /\ reads 0 seg = map ev_word (f0 ++ [z0]))
        /\ Forall (fun e => valid (ev_out e) = true
                            /\ first (ev_out e)
                               = (ev_bundle e =? 0)%nat
                                 && (word_channel (ev_word e) =? 0)) seg
        /\ length (filter (fun e => first (ev_out e)) seg)
           = length (filter (fun w => word_channel w =? 0) (reads 0 seg))
        /\ (framed_from 0 (reads 0 seg) = true ->
            exists h mid,
              seg = h :: mid
              /\ first (ev_out h) = true
              /\ Forall (fun e => first (ev_out e) = false) mid)).
Proof.
  intros Hn. split.
  - intros s inp Hvalid. rewrite valid_out in Hvalid.
    unfold channel_stream_out. rewrite Hvalid. cbn [first last].
    split; [ reflexivity | apply andb_comm ].
  - intros ins pre seg post Heq Hround.
    unfold full_round in Hround.
    repeat (apply andb_true_iff in Hround;
            let H := fresh "H" in destruct Hround as [Hround H]).
    rename Hround into Hbd, H2 into Hmod, H1 into Hne, H0 into Hsb,
      H into Hfr.
    apply Nat.eqb_eq in Hmod, Hfr.
    pose proof (follows_reset no_bundles Hn ins) as Hf. rewrite Heq in Hf.
    assert (Hexp : Forall (fun e => ev_out e
                                    = expected_out no_bundles (ev_bundle e)
                                                   (ev_word e)) seg).
    { apply Forall_forall. intros e Hin.
      apply (follows_In no_bundles Hn _ e _
                        (follows_reset no_bundles Hn ins)).
      rewrite Heq. apply in_or_app. right. apply in_or_app. left. exact Hin. }
    assert (Hchar : Forall (fun e => valid (ev_out e) = true
                              /\ first (ev_out e)
                                 = (ev_bundle e =? 0)%nat
                                   && (word_channel (ev_word e) =? 0)) seg).
    { eapply Forall_impl; [ | exact Hexp ]. intros e ->. split; reflexivity. }
    assert (Hseg : seg <> []) by (destruct seg; [ discriminate Hne | discriminate ]).
    assert (Hlast : exists body z,
               seg = body ++ [z]
               /\ last (ev_out z) = true
               /\ Forall (fun e => last (ev_out e) = false) body).
    { destruct (snoc_cases seg) as [-> | (body & z & -> & Hrev)];
        [ contradiction | ].
      unfold frame_boundary in Hsb. rewrite Hrev in Hsb.
      destruct (round_last_flags no_bundles Hn pre body z post Hf Hmod Hsb Hfr)
        as [Hz Hbody].
      exists body, z. repeat split; assumption. }
    pose proof (follows_round_start no_bundles Hn _ _ Hf Hmod) as Hf'.
    destruct (opening_frame no_bundles Hn seg post Hf' Hseg Hsb Hfr)
      as (f0 & z0 & rest & Hsplit & Hf0 & Hz0 & Hez0 & Hrest).
    assert (Hown : Forall (fun e => ev_bundle e = 0%nat) (f0 ++ [z0])).
    { apply Forall_app. split.
      - eapply Forall_impl; [ | exact Hf0 ]. intros e [He _]. exact He.
      - constructor; [ exact Hz0 | constructor ]. }
    assert (Hreads : reads 0 seg = map ev_word (f0 ++ [z0])).
    { rewrite Hsplit. change (f0 ++ z0 :: rest) with (f0 ++ [z0] ++ rest).
      rewrite app_assoc, reads_app, (reads_other 0 rest Hrest), app_nil_r.
      apply reads_own, Hown. }
    rewrite Forall_forall in Hchar.
    assert (Hin_rest : forall e, In e rest -> In e seg).
    { intros e Hin. rewrite Hsplit. apply in_or_app. right. right. exact Hin. }
    assert (Hin_f : forall e, In e (f0 ++ [z0]) -> In e seg).
    { intros e Hin. rewrite Hsplit.
      change (f0 ++ z0 :: rest) with (f0 ++ [z0] ++ rest).
      rewrite app_assoc. apply in_or_app. left. exact Hin. }
    assert (Hrest' : Forall (fun e => ev_bundle e <> 0%nat
                                      /\ first (ev_out e) = false) rest).
    { apply Forall_forall. intros e Hin.
      rewrite Forall_forall in Hrest. specialize (Hrest e Hin).
      split; [ exact Hrest | ].
      destruct (Hchar e (Hin_rest e Hin)) as [_ ->].
      destruct (Nat.eqb_spec (ev_bundle e) 0); [ contradiction | reflexivity ]. }
    split; [ exact Hlast | ].
    split; [ exists f0, z0, rest; repeat split; assumption | ].
    split; [ apply Forall_forall; exact Hchar | ].
    split.
    + apply count_first. apply Forall_forall. intros e Hin.
      apply (Hchar e Hin).
    + intros Hframed. rewrite Hreads, map_app in Hframed.
      cbn [map] in Hframed.
      assert (Hnl : Forall (fun w => word_last w = false) (map ev_word f0)).
      { apply Forall_map. eapply Forall_impl; [ | exact Hf0 ].
        intros e [_ He]. exact He. }
      destruct f0 as [| h f0'].
      * exfalso. cbn [map app] in Hframed.
        apply framed_from_cons in Hframed. destruct Hframed as (_ & Hl & _).
        unfold frame_end in Hez0. rewrite Hez0 in Hl. discriminate.
      * cbn [map app] in Hframed. apply framed_from_cons in Hframed.
        destruct Hframed as (Hch & _ & Hnext).
        apply Forall_inv_tail in Hnl.
        assert (Hnz : Forall (fun w => word_channel w <> 0)
                             (map ev_word f0' ++ [ev_word z0])).
        { apply (framed_frame_nonzero _ _ 1);
            [ unfold NO_CHANNELS_ADAT; lia | exact Hnext | exact Hnl ]. }
        exists h, (f0' ++ z0 :: rest). split; [ exact Hsplit | ]. split.
        -- destruct (Hchar h (Hin_f h (or_introl eq_refl))) as [_ ->].
           rewrite (Forall_inv Hown), Hch. reflexivity.
        -- change (f0' ++ z0 :: rest) with (f0' ++ [z0] ++ rest).
           rewrite app_assoc. apply Forall_app. split.
           ++ apply Forall_forall. intros e Hin.
              destruct (Hchar e (Hin_f e (or_intror Hin))) as [_ ->].
              rewrite Forall_forall in Hnz.
              assert (Hw : word_channel (ev_word e) <> 0).
              { apply Hnz. change [ev_word z0] with (map ev_word [z0]).
                rewrite <- map_app. apply in_map, Hin. }
              apply Z.eqb_neq in Hw. rewrite Hw. apply andb_false_r.
           ++ eapply Forall_impl; [ | exact Hrest' ]. intros e [_ He]. exact He.
Qed.

(** The test: the frame of bundle 0 that opens the round is in order, the
    first event of the round has first set and no other has. *)
Lemma frame_markers_witness :
  exists h mid,
    emitted 4 (reset 4) test_smoke = h :: mid
    /\ first (ev_out h) = true
    /\ Forall (fun e => first (ev_out e) = false) mid.
Proof.
  assert (Hn : (1 <= 4)%nat) by lia.
  assert (Heq : emitted 4 (reset 4) test_smoke
                = [] ++ emitted 4 (reset 4) test_smoke ++ [])
    by (vm_compute; reflexivity).
  assert (Hround : full_round 4 [] (emitted 4 (reset 4) test_smoke) = true)
    by (vm_compute; reflexivity).
  assert (Hframed : framed_from 0 (reads 0 (emitted 4 (reset 4) test_smoke))
                    = true)
    by (vm_compute; reflexivity).
  exact (proj2 (proj2 (proj2 (proj2
           (proj2 (frame_markers 4 Hn) test_smoke [] _ [] Heq Hround))))
           Hframed).
Defined.

(** C5, as stated, fails: a producer may send sub-channel 0 twice in a
    frame of bundle 0, and then two events of one round have first set.
    Here bundle 0 sends a frame of two events, both with sub-channel 0,
    and bundles 1 to 3 a frame of one event each. *)
Lemma two_first_flags_in_a_round :
  let ev ch l := mk_stream_in true 1 ch (ch =? 0) l in
  let t0 := mk_inputs (fun b => match b with
                                | 0%nat => ev 0 false
                                | _ => ev 7 true
                                end) true in
  let t1 := mk_inputs (fun b => match b with
                                | 0%nat => ev 0 true
                                | _ => idle
                                end) true in
  let t2 := mk_inputs (fun _ => idle) true in
  let l := emitted 4 (reset 4) [t0; t1; t2; t2; t2; t2] in
  full_round 4 [] l = true
  /\ map (fun e => (ev_bundle e, first (ev_out e), last (ev_out e))) l
     = [ (0%nat, true, false); (0%nat, true, false); (1%nat, false, false);
         (2%nat, false, false); (3%nat, false, true) ].
Proof.
  vm_compute. split; reflexivity.
Qed.

(** C6, as amended.  On a tick without emission no output event is
    produced, the selector keeps its value and no buffer is read: every
    buffer keeps its words in order, with the word its producer writes on
    that tick, if any, added at the back.  While the consumer withholds
    ready, for any number of ticks, the same holds of the whole stall, and
    on the tick ready returns the core emits the word that was at the
    front of the selected buffer when the stall began.  Over any run every
    buffer gives out the words it took in, each once and in order. *)
Theorem stall_lossless (no_bundles : nat) :
  (1 <= no_bundles)%nat ->
  (forall s inp,
     reachable no_bundles s ->
     emit no_bundles s inp = false ->
     channel_stream_out no_bundles s inp = idle_out
     /\ selector (step no_bundles s inp) = selector s
     /\ forall b, (b < no_bundles)%nat ->
                  fifo (step no_bundles s inp) b = fifo s b ++ written s inp b)
  /\ (forall s stall,
        reachable no_bundles s ->
        Forall (fun i => out_ready i = false) stall ->
        outputs no_bundles s stall = repeat idle_out (length stall)
        /\ selector (run no_bundles s stall) = selector s
        /\ (forall b, (b < no_bundles)%nat ->
                      fifo (run no_bundles s stall) b =
                        fifo s b ++ writes no_bundles b s stall)
        /\ (forall w q inp,
              fifo s (selected no_bundles s) = w :: q ->
              out_ready inp = true ->
              tick_event no_bundles (run no_bundles s stall) inp =
                [ mk_event (selected no_bundles s) w
                           (expected_out no_bundles
                                         (selected no_bundles s) w) ]))
  /\ (forall s ins b,
        reachable no_bundles s ->
        (b < no_bundles)%nat ->
        fifo s b ++ writes no_bundles b s ins =
          reads b (emitted no_bundles s ins) ++ fifo (run no_bundles s ins) b).
Proof.
  intros Hn. split; [ | split ].
  - intros s inp Hreach Hemit.
    destruct (reachable_inv no_bundles Hn s Hreach) as (Hlen & _).
    destruct (idle_tick no_bundles Hn s inp Hemit) as (Ho & _ & Hs & _ & Hq).
    rewrite Hlen in Hq. auto.
  - intros s stall Hreach Hstall.
    pose proof (reachable_inv no_bundles Hn s Hreach) as Hinv.
    pose proof (inv_run no_bundles Hn stall s Hinv) as Hinv'.
    destruct Hinv as (Hlen & _).
    destruct (stalled_run no_bundles Hn stall Hstall s)
      as (Ho & _ & Hs & Hsel & Hq).
    rewrite Hlen in Hq.
    split; [ exact Ho | ]. split; [ exact Hs | ]. split; [ exact Hq | ].
    intros w q inp Hfront Hready.
    assert (Hfifo : fifo (run no_bundles s stall) (selected no_bundles s)
                    = w :: q ++ writes no_bundles (selected no_bundles s)
                                       s stall).
    { rewrite Hq by (apply selected_lt; assumption).
      rewrite Hfront. reflexivity. }
    assert (Hemit : emit no_bundles (run no_bundles s stall) inp = true).
    { unfold emit, bundle_ready. rewrite Hsel, Hfifo, Hready. reflexivity. }
    unfold tick_event. rewrite Hemit, out_expected by assumption.
    rewrite Hsel, Hfifo. reflexivity.
  - intros s ins b Hreach Hb. apply conservation.
    destruct (reachable_inv no_bundles Hn s Hreach) as (-> & _).
    assumption.
Qed.

(** The test, with ready withheld from its fourth tick on: the selector
    and the sample waiting in the first buffer stay as they are. *)
Lemma stall_lossless_witness :
  let s := run 4 (reset 4) (firstn 3 test_smoke) in
  let stall := map (fun i => drive_ready i false) (skipn 3 test_smoke) in
  selector (run 4 s stall) = selector s.
Proof.
  intros s stall.
  refine (proj1 (proj2 (proj1 (proj2 (stall_lossless 4 _)) s stall _ _))).
  - lia.
  - exists (firstn 3 test_smoke). reflexivity.
  - apply Forall_map, Forall_forall. intros i _. reflexivity.
Defined.

(** C6, as stated, fails: on a tick without emission a buffer takes the
    word its producer writes, so the buffer state changes. *)
Lemma stall_buffer_changes :
  let inp := drive undriven 0%nat (mk_stream_in true 77 0 true false) in
  reachable 4 (reset 4)
  /\ out_ready inp = false
  /\ emit 4 (reset 4) inp = false
  /\ channel_stream_out 4 (reset 4) inp = idle_out
  /\ fifos (step 4 (reset 4) inp) <> fifos (reset 4).
Proof.
  intros inp. split; [ exists []; reflexivity | ].
  repeat split. vm_compute. discriminate.
Qed.



(** C8, as amended.  Across the transferred events of any run, the
    channel number is 0 exactly on the events with first set.  From an
    event that does not carry last to the next event, the channel number
    changes by the difference of the sub-channel indices of the two words
    read, plus 8 when the first of the two ends a frame; the core does not
    check these indices.  So when the words every buffer accepts (the
    events transferred on its input, valid and ready both high) carry the
    sub-channels in the order 0 to 7, last on sub-channel 7 exactly, the
    first transferred event has channel number 0 and, from each
    transferred event to the next, the channel number goes up by 1 within
    a frame and is 0 after an event with last set. *)
Theorem channel_nr_sequence (no_bundles : nat) (ins : list inputs) :
  (1 <= no_bundles)%nat ->
  (forall o,
     In o (transferred no_bundles (reset no_bundles) ins) ->
     channel_nr o = 0 <-> first o = true)
  /\ (accepted_framed no_bundles ins ->
      numbered 0 (transferred no_bundles (reset no_bundles) ins)
      /\ forall p o1 o2 q,
          transferred no_bundles (reset no_bundles) ins = p ++ o1 :: o2 :: q ->
          channel_nr o2 = if last o1 then 0 else channel_nr o1 + 1)
  /\ (forall p e1 e2 q,
        emitted no_bundles (reset no_bundles) ins = p ++ e1 :: e2 :: q ->
        last (ev_out e1) = false ->
        channel_nr (ev_out e2) - channel_nr (ev_out e1)
        = word_channel (ev_word e2) - word_channel (ev_word e1)
          + (if frame_end e1 then NO_CHANNELS_ADAT else 0)).
Proof.
  intros Hn. split; [ | split ].
  - intros o Hin. rewrite transferred_emitted in Hin.
    apply in_map_iff in Hin. destruct Hin as (e & <- & He).
    rewrite (first_of_event no_bundles Hn ins e He).
    symmetry. apply Z.eqb_eq.
  - intros Hwf. pose proof (numbered_reset no_bundles Hn ins Hwf) as Hnum.
    split; [ exact Hnum | ].
    intros p o1 o2 q Heq. rewrite Heq in Hnum.
    exact (numbered_adjacent _ _ _ _ _ Hnum).
  - intros p e1 e2 q Heq Hlast.
    pose proof (follows_reset no_bundles Hn ins) as Hf. rewrite Heq in Hf.
    pose proof (follows_adjacent no_bundles Hn _ _ _ _ _ Hf) as Hb2.
    destruct (follows_at no_bundles Hn _ _ _ _ Hf) as [Hb1 Ho1].
    assert (Hlt : (ev_bundle e1 < no_bundles)%nat)
      by (rewrite Hb1; apply bundle_after_lt; lia).
    change (p ++ e1 :: e2 :: q) with (p ++ [e1] ++ e2 :: q) in Hf.
    rewrite app_assoc in Hf.
    destruct (follows_at no_bundles Hn _ _ _ _ Hf) as [_ Ho2].
    rewrite Ho1 in Hlast. rewrite Ho1, Ho2. unfold expected_out in *.
    cbn [last channel_nr] in *. fold (frame_end e1) in Hlast.
    rewrite Hb2. unfold next_bundle, NO_CHANNELS_ADAT.
    destruct (frame_end e1); cbn [andb] in Hlast; [ | lia ].
    rewrite Hlast. lia.
Qed.

Lemma channel_nr_sequence_witness :
  numbered 0 (transferred 4 (reset 4) test_smoke).
Proof.
  refine (proj1 (proj1 (proj2 (channel_nr_sequence 4 test_smoke _)) _)).
  - lia.
  - exact test_smoke_accepted_framed.
Defined.

(** C8, as stated, fails: the channel number follows the sub-channel
    index the producer sends.  Here bundle 0 sends sub-channel 0 and then
    sub-channel 5; the channel number goes from 0 to 5 within the
    frame. *)
Lemma channel_nr_jumps :
  let ev ch := mk_stream_in true 1 ch (ch =? 0) (ch =? 7) in
  let t0 := mk_inputs (fun b => match b with
                                | 0%nat => ev 0
                                | _ => idle
                                end) true in
  let t1 := mk_inputs (fun b => match b with
                                | 0%nat => ev 5
                                | _ => idle
                                end) true in
  let t2 := mk_inputs (fun _ => idle) true in
  map (fun o => (channel_nr o, first o, last o))
      (transferred 4 (reset 4) [t0; t1; t2])
  = [ (0, true, false); (5, false, false) ].
Proof.
  vm_compute. reflexivity.
Qed.

(** C9. The first flags of the input streams have no influence: two runs
    whose inputs agree, tick by tick, on everything but the first flags
    of the bundle streams produce the same output signals on every tick,
    the same transferred events, and end in the same state. *)
Theorem first_flag_unused (no_bundles : nat) (ins1 ins2 : list inputs) :
  Forall2 same_but_first ins1 ins2 ->
  forall s,
    outputs no_bundles s ins1 = outputs no_bundles s ins2
    /\ transferred no_bundles s ins1 = transferred no_bundles s ins2
    /\ emitted no_bundles s ins1 = emitted no_bundles s ins2
    /\ run no_bundles s ins1 = run no_bundles s ins2.
Proof.
  intros H. unfold transferred.
  induction H as [| i1 i2 r1 r2 Hi Hr IH]; intros s;
    cbn [outputs emitted run]; [ repeat split | ].
  destruct (same_but_first_tick no_bundles s i1 i2 Hi) as (Ho & He & Hs).
  rewrite Ho, He, Hs. destruct (IH (step no_bundles s i2)) as (-> & _ & -> & ->).
  repeat split.
Qed.

(** The inputs of the test, with every first flag inverted. *)
Lemma first_flag_unused_witness :
  let flip x :=
    mk_stream_in (in_valid x) (in_payload x) (in_channel_nr x)
                 (negb (in_first x)) (in_last x) in
  let flipped :=
    map (fun i => mk_inputs (fun b => flip (bundles_in i b)) (out_ready i))
        test_smoke in
  outputs 4 (reset 4) test_smoke = outputs 4 (reset 4) flipped.
Proof.
  intros flip flipped.
  refine (proj1 (first_flag_unused 4 test_smoke flipped _ (reset 4))).
  subst flipped. induction test_smoke as [| i r IH]; constructor;
    [ | exact IH ].
  split; [ reflexivity | ]. intros b. repeat split.
Defined.

(** C10. Valid is gated on ready: on every tick the output valid, and
    every read-enable, is set only if the consumer's ready is set; so a
    consumer that raises ready only after it has seen valid on an earlier
    tick never sees valid. *)
Theorem valid_gated_on_ready (no_bundles : nat) :
  (forall s inp,
     valid (channel_stream_out no_bundles s inp) = true ->
     out_ready inp = true)
  /\ (forall s inp i,
        read_enable no_bundles s inp i = true -> out_ready inp = true)
  /\ (forall s ins,
        (forall k inp,
           nth_error ins k = Some inp ->
           out_ready inp = true ->
           exists j o,
             (j < k)%nat
             /\ nth_error (outputs no_bundles s ins) j = Some o
             /\ valid o = true) ->
        Forall (fun o => valid o = false) (outputs no_bundles s ins)).
Proof.
  split; [ apply valid_ready | ]. split.
  - intros s inp i H. unfold read_enable, emit in H.
    apply andb_true_iff in H. destruct H as [H _].
    apply andb_true_iff in H. apply H.
  - intros s ins Hwait.
    assert (Hall : forall k o,
               nth_error (outputs no_bundles s ins) k = Some o ->
               valid o = false).
    { intros k. induction k as [k IH] using lt_wf_ind. intros o Hk.
      destruct (valid o) eqn:Hv; [ exfalso | reflexivity ].
      rewrite outputs_nth_error in Hk.
      destruct (nth_error ins k) as [inp |] eqn:Hinp; [ | discriminate ].
      cbn [option_map] in Hk. injection Hk as Hk. rewrite <- Hk in Hv.
      destruct (Hwait k inp Hinp (valid_ready _ _ _ Hv))
        as (j & o' & Hj & Ho' & Hv').
      rewrite (IH j Hj o' Ho') in Hv'. discriminate. }
    apply Forall_forall. intros o Hin.
    apply In_nth_error in Hin. destruct Hin as [k Hk]. exact (Hall k o Hk).
Qed.

Lemma valid_gated_on_ready_witness :
  out_ready (nth 12 test_smoke undriven) = true.
Proof.
  refine (proj1 (valid_gated_on_ready 4)
                (run 4 (reset 4) (firstn 12 test_smoke)) _ _).
  reflexivity.
Defined.

(** * Further properties of the circuit *)

(** ** Stored words *)

Lemma testbit_above w n i :
  0 <= w < 2 ^ n -> 0 <= n <= i -> Z.testbit w i = false.
Proof.
  intros Hw Hi. destruct (Z.eq_dec w 0) as [-> | Hne];
    [ apply Z.bits_0 | ].
  apply Z.bits_above_log2; [ lia | ].
  assert (Z.log2 w < n) by (apply Z.log2_lt_pow2; lia). lia.
Qed.

Lemma w_data_trunc x : trunc fifo_width (w_data x) = w_data x.
Proof.
  rewrite fifo_width_eq. apply Z.bits_inj'. intros i Hi.
  rewrite testbit_trunc, !testbit_w_data by lia.
  destruct (Z.ltb_spec i 28); [ apply andb_true_r | ].
  destruct (Z.ltb_spec i 24), (Z.ltb_spec i 27), (Z.eqb_spec i 27);
    try lia; reflexivity.
Qed.

(** X1. Decoding a stored word and packing the fields again gives the
    word back: every word of the FIFO width is the packing of its sample,
    sub-channel and last fields, whatever the valid and first flags. *)
Theorem word_decode_encode (w : Z) (v f : bool) :
  0 <= w < 2 ^ fifo_width ->
  w_data (mk_stream_in v (word_sample w) (word_channel w) f (word_last w)) = w.
Proof.
  rewrite fifo_width_eq. intros Hw. apply Z.bits_inj'. intros i Hi.
  rewrite testbit_w_data by assumption. cbn [in_payload in_channel_nr in_last].
  unfold word_sample, word_channel, word_last, slice.
  rewrite fifo_width_eq, bundle_channel_bits_eq. unfold SAMPLE_WIDTH.
  destruct (Z.ltb_spec i 24).
  - rewrite testbit_trunc, Z.shiftr_spec by lia.
    replace (i + 0) with i by lia.
    destruct (Z.ltb_spec i (24 - 0)); [ apply andb_true_r | lia ].
  - destruct (Z.ltb_spec i 27).
    + rewrite testbit_trunc, Z.shiftr_spec by lia.
      replace (i - 24 + 24) with i by lia.
      destruct (Z.ltb_spec (i - 24) (24 + 3 - 24)); [ apply andb_true_r | lia ].
    + destruct (Z.eqb_spec i 27) as [-> | Hne]; [ reflexivity | ].
      symmetry. apply (testbit_above w 28); lia.
Qed.

Lemma word_decode_encode_witness :
  w_data (mk_stream_in true (word_sample 151587081) (word_channel 151587081)
                       false (word_last 151587081))
  = 151587081.
Proof.
  refine (word_decode_encode 151587081 true false _).
  vm_compute. split; [ discriminate | reflexivity ].
Defined.

(** X2. A packed word fits the FIFO width, and it determines the fields
    that went into it: two inputs are packed to the same word exactly when
    they agree on the low 24 bits of the payload, the low 3 bits of the
    sub-channel and the last flag. *)
Theorem w_data_faithful (x y : stream_in) :
  0 <= w_data x < 2 ^ fifo_width
  /\ (w_data x = w_data y <->
      trunc SAMPLE_WIDTH (in_payload x) = trunc SAMPLE_WIDTH (in_payload y)
      /\ trunc _bundle_channel_bits (in_channel_nr x)
         = trunc _bundle_channel_bits (in_channel_nr y)
      /\ in_last x = in_last y).
Proof.
  split.
  - rewrite <- w_data_trunc. apply trunc_range. rewrite fifo_width_eq. lia.
  - split.
    + intros H.
      rewrite <- !word_sample_w_data, <- !word_channel_w_data,
        <- (word_last_w_data x), <- (word_last_w_data y), H.
      repeat split.
    + intros (Hp & Hc & Hl).
      rewrite <- (word_decode_encode (w_data x) (in_valid y) (in_first y)),
        <- (word_decode_encode (w_data y) (in_valid y) (in_first y)).
      * rewrite !word_sample_w_data, !word_channel_w_data, !word_last_w_data,
          Hp, Hc, Hl. reflexivity.
      * rewrite <- w_data_trunc. apply trunc_range. rewrite fifo_width_eq. lia.
      * rewrite <- w_data_trunc. apply trunc_range. rewrite fifo_width_eq. lia.
Qed.

(** ** Widths and registers *)

(** X3. The widths chosen for the channel number and for the bundle
    index are the least ones that fit: all of [0, N*8) fits in
    [_channel_bits] bits and one bit less does not; all of [0, N) fits in
    the bits of [current_bundle], and one bit less does not when there
    are at least two bundles. *)
Theorem widths_are_tight (no_bundles : nat) :
  (1 <= no_bundles)%nat ->
  Z.of_nat no_bundles * NO_CHANNELS_ADAT <= 2 ^ _channel_bits no_bundles
  /\ 2 ^ (_channel_bits no_bundles - 1)
     < Z.of_nat no_bundles * NO_CHANNELS_ADAT
  /\ Z.of_nat no_bundles <= 2 ^ bundle_index_bits no_bundles
  /\ ((2 <= no_bundles)%nat ->
      2 ^ (bundle_index_bits no_bundles - 1) < Z.of_nat no_bundles).
Proof.
  intros Hn.
  split; [ apply (channel_bits_spec no_bundles Hn) | ].
  split; [ | split; [ apply (bundle_index_bits_spec no_bundles Hn) | ] ].
  - unfold _channel_bits, range_width, bits_for, log2_int, NO_CHANNELS_ADAT.
    change (0 <? 0) with false. cbn [Z.opp]. change (Z.log2_up 0 + 1) with 1.
    destruct (Z.ltb_spec 0 (Z.of_nat no_bundles * 8 - 1)); [ | lia ].
    replace (Z.of_nat no_bundles * 8 - 1 + 1) with (Z.of_nat no_bundles * 8)
      by lia.
    assert (H3 : 3 <= Z.log2_up (Z.of_nat no_bundles * 8)).
    { change 3 with (Z.log2_up 8). apply Z.log2_up_le_mono. lia. }
    rewrite Z.max_r by lia.
    pose proof (Z.log2_up_spec (Z.of_nat no_bundles * 8)) as Hs.
    rewrite <- Z.sub_1_r in Hs. apply Hs. lia.
  - intros H2.
    unfold bundle_index_bits, range_width, bits_for, log2_int.
    change (0 <? 0) with false. cbn [Z.opp]. change (Z.log2_up 0 + 1) with 1.
    destruct (Z.ltb_spec 0 (Z.of_nat no_bundles - 1)); [ | lia ].
    replace (Z.of_nat no_bundles - 1 + 1) with (Z.of_nat no_bundles) by lia.
    assert (H1 : 1 <= Z.log2_up (Z.of_nat no_bundles)).
    { change 1 with (Z.log2_up 2). apply Z.log2_up_le_mono. lia. }
    rewrite Z.max_r by lia.
    pose proof (Z.log2_up_spec (Z.of_nat no_bundles)) as Hs.
    rewrite <- Z.sub_1_r in Hs. apply Hs. lia.
Qed.

Lemma widths_are_tight_witness :
  2 ^ (_channel_bits 4 - 1) < 4 * NO_CHANNELS_ADAT.
Proof.
  refine (proj1 (proj2 (widths_are_tight 4 _))). lia.
Defined.

(** X4. The registers stay within their widths and the array index is
    never out of range: in every reachable state [current_bundle] is a
    bundle index, so that indexing selects that very bundle, and
    [first_bundle_channel] is at most the base of the last bundle; both
    are below two to the power of their width. *)
Theorem registers_in_range (no_bundles : nat) (s : state) :
  (1 <= no_bundles)%nat ->
  reachable no_bundles s ->
  0 <= current_bundle s < Z.of_nat no_bundles
  /\ selected no_bundles s = Z.to_nat (current_bundle s)
  /\ current_bundle s < 2 ^ bundle_index_bits no_bundles
  /\ 0 <= first_bundle_channel s
       <= (Z.of_nat no_bundles - 1) * NO_CHANNELS_ADAT
  /\ first_bundle_channel s < 2 ^ _channel_bits no_bundles
  /\ length (fifos s) = no_bundles.
Proof.
  intros Hn Hreach.
  destruct (reachable_inv no_bundles Hn s Hreach) as (Hlen & Hcb & Hfbc).
  destruct (channel_bits_spec no_bundles Hn) as [_ Hc].
  destruct (bundle_index_bits_spec no_bundles Hn) as [_ Hb].
  unfold selected, NO_CHANNELS_ADAT in *. repeat split; lia.
Qed.

Lemma registers_in_range_witness :
  selected 4 (run 4 (reset 4) (firstn 12 test_smoke))
  = Z.to_nat (current_bundle (run 4 (reset 4) (firstn 12 test_smoke))).
Proof.
  refine (proj1 (proj2 (registers_in_range 4 _ _ _))).
  - lia.
  - exists (firstn 12 test_smoke). reflexivity.
Defined.

(** ** Buffers *)

Lemma tick_bounded q w_en w r_en :
  (length q <= Fifo.depth)%nat ->
  (length (Fifo.tick q w_en w r_en) <= Fifo.depth)%nat.
Proof.
  intros Hq. unfold Fifo.tick, Fifo.do_write, Fifo.w_rdy.
  rewrite length_app.
  assert (Hr : (length (if Fifo.do_read q r_en then tl q else q)
                <= length q)%nat).
  { destruct (Fifo.do_read q r_en); [ | lia ].
    destruct q; cbn [tl length]; lia. }
  destruct (Nat.ltb_spec (length q) Fifo.depth); cbn [andb].
  - destruct w_en; cbn [length]; lia.
  - cbn [length]. lia.
Qed.

Lemma fifo_step_bounded n s inp b :
  (length (fifo s b) <= Fifo.depth)%nat ->
  (length (fifo (step n s inp) b) <= Fifo.depth)%nat.
Proof.
  intros Hq. destruct (Nat.lt_ge_cases b (length (fifos s))) as [Hb | Hb].
  - rewrite fifo_step by assumption. apply tick_bounded, Hq.
  - unfold fifo. rewrite nth_overflow by (rewrite step_length; assumption).
    cbn [length]. lia.
Qed.

Lemma run_bounded n ins :
  forall s,
    (forall b, (length (fifo s b) <= Fifo.depth)%nat) ->
    forall b, (length (fifo (run n s ins) b) <= Fifo.depth)%nat.
Proof.
  induction ins as [| inp rest IH]; intros s Hs; cbn [run]; [ exact Hs | ].
  apply IH. intros b. apply fifo_step_bounded, Hs.
Qed.

(** X5. No buffer ever overflows: in every state reachable from reset,
    whatever the producers and the consumer do, every receive FIFO holds
    at most 8 words, and the ready signal to a producer is low exactly
    when its FIFO holds 8. *)
Theorem buffers_bounded (no_bundles : nat) (s : state) (b : nat) :
  reachable no_bundles s ->
  (length (fifo s b) <= 8)%nat
  /\ (in_ready s b = false <-> length (fifo s b) = 8%nat).
Proof.
  intros [ins ->].
  assert (Hle : (length (fifo (run no_bundles (reset no_bundles) ins) b)
                 <= Fifo.depth)%nat).
  { apply run_bounded. intros b'. rewrite fifo_reset. cbn [length]. lia. }
  change Fifo.depth with 8%nat in Hle. split; [ exact Hle | ].
  unfold in_ready, Fifo.w_rdy. change Fifo.depth with 8%nat.
  rewrite Nat.ltb_ge. lia.
Qed.

Lemma buffers_bounded_witness :
  (length (fifo (run 4 (reset 4) (firstn 12 test_smoke)) 1) <= 8)%nat.
Proof.
  refine (proj1 (buffers_bounded 4 _ 1 _)).
  exists (firstn 12 test_smoke). reflexivity.
Defined.

Lemma offered_stall_step n s inp b :
  (b < length (fifos s))%nat ->
  emit n s inp = false ->
  fifo (step n s inp) b =
    fifo s b
    ++ firstn (Fifo.depth - length (fifo s b))
              (if connect_w_en (bundles_in inp b)
               then [w_data (bundles_in inp b)] else []).
Proof.
  intros Hb Hemit. rewrite fifo_step by assumption.
  unfold Fifo.tick, Fifo.do_read, Fifo.do_write, Fifo.w_rdy, read_enable.
  rewrite Hemit, andb_false_r. f_equal.
  destruct (Nat.ltb_spec (length (fifo s b)) Fifo.depth) as [Hlt | Hge];
    cbn [andb].
  - destruct (connect_w_en (bundles_in inp b)); [ | rewrite firstn_nil; reflexivity ].
    destruct (Fifo.depth - length (fifo s b))%nat eqn:Hd; [ lia | ].
    cbn [firstn]. rewrite firstn_nil. reflexivity.
  - replace (Fifo.depth - length (fifo s b))%nat with 0%nat by lia.
    reflexivity.
Qed.

(** X6. While the consumer withholds ready, a buffer takes the words its
    producer offers until it holds 8, and none after that: after the
    stall it holds what it held before, followed by as many of the
    offered words, oldest first, as there was room for.  From reset that
    is the first 8 words offered. *)
Theorem stall_fills_buffer (no_bundles : nat) (stall : list inputs) (b : nat) :
  (b < no_bundles)%nat ->
  Forall (fun i => out_ready i = false) stall ->
  forall s,
    reachable no_bundles s ->
    fifo (run no_bundles s stall) b =
      fifo s b ++ firstn (8 - length (fifo s b)) (offered b stall).
Proof.
  intros Hb Hstall s Hreach.
  assert (Hn : (1 <= no_bundles)%nat) by lia.
  assert (Hlen : (b < length (fifos s))%nat).
  { destruct (reachable_inv no_bundles Hn s Hreach) as (-> & _). exact Hb. }
  clear Hreach. revert s Hlen. change 8%nat with Fifo.depth.
  induction Hstall as [| inp rest Hready Hrest IH]; intros s Hlen;
    cbn [run offered].
  - rewrite firstn_nil. symmetry. apply app_nil_r.
  - assert (Hemit : emit no_bundles s inp = false)
      by (unfold emit; rewrite Hready; apply andb_false_r).
    rewrite IH by (rewrite step_length; exact Hlen).
    rewrite (offered_stall_step no_bundles s inp b Hlen Hemit).
    rewrite <- app_assoc. f_equal.
    rewrite firstn_app, length_app.
    set (q := fifo s b).
    set (o := if connect_w_en (bundles_in inp b)
              then [w_data (bundles_in inp b)] else []).
    assert (Ho : (length o <= 1)%nat) by (subst o; destruct (connect_w_en _); cbn; lia).
    rewrite length_firstn.
    f_equal. f_equal.
    destruct (Nat.le_gt_cases Fifo.depth (length q)).
    + replace (Fifo.depth - length q)%nat with 0%nat by lia.
      rewrite Nat.min_0_l. lia.
    + destruct o as [| x [| y o']]; cbn [length] in *; lia.
Qed.

Lemma stall_fills_buffer_witness :
  let stall := map (fun i => drive_ready i false) test_smoke in
  fifo (run 4 (reset 4) stall) 0 =
    fifo (reset 4) 0 ++ firstn (8 - length (fifo (reset 4) 0)) (offered 0 stall).
Proof.
  intros stall.
  refine (stall_fills_buffer 4 stall 0 _ _ (reset 4) _).
  - lia.
  - apply Forall_map, Forall_forall. intros i _. reflexivity.
  - exists []. reflexivity.
Defined.

(** ** Emission *)

Lemma emit_tick n s inp :
  emit n s inp = true ->
  exists w q,
    fifo s (selected n s) = w :: q
    /\ Fifo.r_data (fifo s (selected n s)) = w.
Proof.
  unfold emit, bundle_ready. intros H. apply andb_true_iff in H.
  destruct H as [H _].
  destruct (fifo s (selected n s)) as [| w q]; [ discriminate | ].
  exists w, q. split; reflexivity.
Qed.

(** X7. An emission takes exactly one word out of exactly one buffer: on
    a tick with valid set the selected bundle's buffer loses its front
    word, which is the word the output carries, and every other buffer
    keeps all its words; each buffer also takes the word its producer
    writes on that tick. *)
Theorem emission_pops_front (no_bundles : nat) (s : state) (inp : inputs) :
  (1 <= no_bundles)%nat ->
  reachable no_bundles s ->
  valid (channel_stream_out no_bundles s inp) = true ->
  exists w q,
    fifo s (selected no_bundles s) = w :: q
    /\ channel_stream_out no_bundles s inp
       = expected_out no_bundles (selected no_bundles s) w
    /\ fifo (step no_bundles s inp) (selected no_bundles s)
       = q ++ written s inp (selected no_bundles s)
    /\ forall b, (b < no_bundles)%nat -> b <> selected no_bundles s ->
                 fifo (step no_bundles s inp) b = fifo s b ++ written s inp b.
Proof.
  intros Hn Hreach Hvalid. rewrite valid_out in Hvalid.
  pose proof (reachable_inv no_bundles Hn s Hreach) as Hinv.
  destruct (emit_tick no_bundles s inp Hvalid) as (w & q & Hq & Hw).
  exists w, q. split; [ exact Hq | ].
  split; [ rewrite out_expected, Hw by assumption; reflexivity | ].
  destruct Hinv as (Hlen & _).
  assert (Hstep : forall b, (b < no_bundles)%nat ->
            fifo (step no_bundles s inp) b =
              (if (b =? selected no_bundles s)%nat then tl (fifo s b)
               else fifo s b) ++ written s inp b).
  { intros b Hb. rewrite fifo_step by (rewrite Hlen; exact Hb).
    unfold Fifo.tick, Fifo.do_read, read_enable, written. rewrite Hvalid.
    cbn [andb]. destruct (Nat.eqb_spec b (selected no_bundles s)) as [-> | Hne].
    - rewrite Hq. reflexivity.
    - rewrite andb_false_r. reflexivity. }
  split.
  - rewrite Hstep by (apply selected_lt; assumption).
    rewrite Nat.eqb_refl, Hq. reflexivity.
  - intros b Hb Hne. rewrite Hstep by assumption.
    destruct (Nat.eqb_spec b (selected no_bundles s)); [ contradiction | ].
    reflexivity.
Qed.

Lemma emission_pops_front_witness :
  let s := run 4 (reset 4) (firstn 12 test_smoke) in
  let inp := nth 12 test_smoke undriven in
  exists w q,
    fifo s (selected 4 s) = w :: q
    /\ channel_stream_out 4 s inp = expected_out 4 (selected 4 s) w
    /\ fifo (step 4 s inp) (selected 4 s) = q ++ written s inp (selected 4 s)
    /\ forall b, (b < 4)%nat -> b <> selected 4 s ->
                 fifo (step 4 s inp) b = fifo s b ++ written s inp b.
Proof.
  intros s inp.
  refine (emission_pops_front 4 s inp _ _ _).
  - lia.
  - exists (firstn 12 test_smoke). reflexivity.
  - vm_compute. reflexivity.
Defined.

(** X8. The consumer can tell the bundle and the sub-channel from the
    channel number: on every emitted event the selected bundle is the
    channel number divided by 8 and the sub-channel index of the consumed
    word is the remainder. *)
Theorem channel_nr_demux (no_bundles : nat) (s : state) (inp : inputs) :
  (1 <= no_bundles)%nat ->
  reachable no_bundles s ->
  valid (channel_stream_out no_bundles s inp) = true ->
  current_bundle s
  = channel_nr (channel_stream_out no_bundles s inp) / NO_CHANNELS_ADAT
  /\ bundle_channel s (selected no_bundles s)
     = channel_nr (channel_stream_out no_bundles s inp) mod NO_CHANNELS_ADAT.
Proof.
  intros Hn Hreach Hvalid. rewrite valid_out in Hvalid.
  pose proof (reachable_inv no_bundles Hn s Hreach) as Hinv.
  rewrite out_expected by assumption.
  unfold expected_out. cbn [channel_nr].
  rewrite (selected_inv no_bundles Hn s Hinv).
  fold (bundle_channel s (selected no_bundles s)).
  pose proof (word_channel_range
                (Fifo.r_data (fifo s (selected no_bundles s)))) as Hch.
  fold (bundle_channel s (selected no_bundles s)) in Hch.
  unfold NO_CHANNELS_ADAT in *.
  split.
  - rewrite Z.add_comm, Z.div_add by lia. rewrite Z.div_small by lia. lia.
  - rewrite Z.add_comm, Z.mod_add by lia. rewrite Z.mod_small by lia.
    reflexivity.
Qed.

Lemma channel_nr_demux_witness :
  let s := run 4 (reset 4) (firstn 12 test_smoke) in
  let inp := nth 12 test_smoke undriven in
  current_bundle s = channel_nr (channel_stream_out 4 s inp) / NO_CHANNELS_ADAT.
Proof.
  intros s inp.
  refine (proj1 (channel_nr_demux 4 s inp _ _ _)).
  - lia.
  - exists (firstn 12 test_smoke). reflexivity.
  - vm_compute. reflexivity.
Defined.

(** X9. The selector counts frames: after any run from a reachable state
    the selected bundle is the one selected before, advanced by the
    number of consumed events with the last flag, modulo the number of
    bundles, and the channel base is 8 times that.  Events without the
    last flag, however many, never move it. *)
Theorem selector_counts_frames (no_bundles : nat) (s : state)
        (ins : list inputs) :
  (1 <= no_bundles)%nat ->
  reachable no_bundles s ->
  current_bundle (run no_bundles s ins)
  = (current_bundle s
     + Z.of_nat (frames (emitted no_bundles s ins))) mod Z.of_nat no_bundles
  /\ first_bundle_channel (run no_bundles s ins)
     = NO_CHANNELS_ADAT * current_bundle (run no_bundles s ins).
Proof.
  intros Hn Hreach.
  pose proof (reachable_inv no_bundles Hn s Hreach) as Hinv.
  pose proof (inv_run no_bundles Hn ins s Hinv) as Hinv'.
  pose proof (selected_inv no_bundles Hn _ Hinv') as Hsel'.
  pose proof (selected_inv no_bundles Hn _ Hinv) as Hsel.
  rewrite selected_run in Hsel' by assumption.
  rewrite bundle_after_mod in Hsel'
    by (try assumption; apply selected_lt; assumption).
  rewrite Nat2Z.inj_mod, Nat2Z.inj_add, Hsel in Hsel'.
  destruct Hinv' as (_ & _ & Hfbc).
  split; [ symmetry; exact Hsel' | ]. rewrite Hfbc. lia.
Qed.

Lemma selector_counts_frames_witness :
  let s := run 4 (reset 4) (firstn 12 test_smoke) in
  let ins := skipn 12 test_smoke in
  current_bundle (run 4 s ins)
  = (current_bundle s + Z.of_nat (frames (emitted 4 s ins))) mod Z.of_nat 4.
Proof.
  intros s ins.
  refine (proj1 (selector_counts_frames 4 s ins _ _)).
  - lia.
  - exists (firstn 12 test_smoke). reflexivity.
Defined.

(** ** Waiting for the selected bundle *)

Lemma written_idle s inp b :
  in_valid (bundles_in inp b) = false -> written s inp b = [].
Proof.
  intros H. unfold written, Fifo.do_write, connect_w_en. rewrite H.
  rewrite andb_false_r. reflexivity.
Qed.

(** X10. A bundle without data holds up all the others for as long as it
    has none: when the selected bundle's buffer is empty and its producer
    sends nothing during a run, nothing at all is emitted during that
    run, whatever the other bundles hold or receive and whatever the
    consumer does, and the selector does not move. *)
Theorem empty_bundle_blocks (no_bundles : nat) (ins : list inputs) :
  (1 <= no_bundles)%nat ->
  forall s,
    reachable no_bundles s ->
    fifo s (selected no_bundles s) = [] ->
    Forall (fun i => in_valid (bundles_in i (selected no_bundles s)) = false)
           ins ->
    transferred no_bundles s ins = []
    /\ selector (run no_bundles s ins) = selector s
    /\ fifo (run no_bundles s ins) (selected no_bundles s) = [].
Proof.
  intros Hn s Hreach.
  pose proof (reachable_inv no_bundles Hn s Hreach) as Hinv. clear Hreach.
  rewrite transferred_emitted.
  revert s Hinv.
  induction ins as [| inp rest IH]; intros s Hinv Hempty Hidle;
    cbn [run emitted map]; [ auto | ].
  inversion Hidle as [| ? ? Hinp Hrest]; subst.
  assert (Hemit : emit no_bundles s inp = false)
    by (unfold emit, bundle_ready; rewrite Hempty; reflexivity).
  destruct (idle_tick no_bundles Hn s inp Hemit) as (_ & He & Hs & Hsel & Hq).
  assert (Hempty' : fifo (step no_bundles s inp)
                         (selected no_bundles (step no_bundles s inp)) = []).
  { rewrite Hsel, Hq.
    - rewrite Hempty, written_idle by assumption. reflexivity.
    - destruct Hinv as (-> & _). apply selected_lt; assumption. }
  rewrite <- Hsel in Hrest.
  destruct (IH _ (inv_step no_bundles Hn s inp Hinv) Hempty' Hrest)
    as (Ht & Hs' & Hq').
  rewrite He, Hs', Hs. rewrite Hsel in Hq'. cbn [app]. auto.
Qed.

(** Bundle 0 never sends; bundles 1 to 3 send the frames of the test. *)
Lemma empty_bundle_blocks_witness :
  let ins := map (fun i => drive i 0 idle) test_smoke in
  transferred 4 (reset 4) ins = [].
Proof.
  intros ins.
  refine (proj1 (empty_bundle_blocks 4 ins _ (reset 4) _ _ _)).
  - lia.
  - exists []. reflexivity.
  - reflexivity.
  - apply Forall_map, Forall_forall. intros i _. reflexivity.
Defined.

(** X11. A word waits one tick and no more: a word written into the
    empty buffer of the selected bundle is not on the output during the
    tick of the write, and it is on the output on the next tick if the
    consumer is ready then. *)
Theorem one_tick_latency (no_bundles : nat) (s : state) (inp next : inputs) :
  (1 <= no_bundles)%nat ->
  reachable no_bundles s ->
  fifo s (selected no_bundles s) = [] ->
  in_valid (bundles_in inp (selected no_bundles s)) = true ->
  out_ready next = true ->
  valid (channel_stream_out no_bundles s inp) = false
  /\ channel_stream_out no_bundles (step no_bundles s inp) next
     = expected_out no_bundles (selected no_bundles s)
                    (w_data (bundles_in inp (selected no_bundles s))).
Proof.
  intros Hn Hreach Hempty Hvalid Hready.
  pose proof (reachable_inv no_bundles Hn s Hreach) as Hinv.
  assert (Hemit : emit no_bundles s inp = false)
    by (unfold emit, bundle_ready; rewrite Hempty; reflexivity).
  destruct (idle_tick no_bundles Hn s inp Hemit) as (Ho & _ & _ & Hsel & Hq).
  split; [ rewrite Ho; reflexivity | ].
  assert (Hfifo : fifo (step no_bundles s inp) (selected no_bundles s)
                  = [w_data (bundles_in inp (selected no_bundles s))]).
  { rewrite Hq.
    - rewrite Hempty. unfold written, Fifo.do_write, connect_w_en.
      rewrite Hempty, Hvalid. reflexivity.
    - destruct Hinv as (-> & _). apply selected_lt; assumption. }
  assert (Hemit' : emit no_bundles (step no_bundles s inp) next = true).
  { unfold emit, bundle_ready. rewrite Hsel, Hfifo, Hready. reflexivity. }
  rewrite out_expected, Hsel, Hfifo
    by (try assumption; apply inv_step; assumption).
  reflexivity.
Qed.

Lemma one_tick_latency_witness :
  let s := run 4 (reset 4) (firstn 2 test_smoke) in
  let inp := nth 2 test_smoke undriven in
  let next := nth 3 test_smoke undriven in
  channel_stream_out 4 (step 4 s inp) next
  = expected_out 4 (selected 4 s) (w_data (bundles_in inp (selected 4 s))).
Proof.
  intros s inp next.
  refine (proj2 (one_tick_latency 4 s inp next _ _ _ _ _)).
  - lia.
  - exists (firstn 2 test_smoke). reflexivity.
  - vm_compute. reflexivity.
  - vm_compute. reflexivity.
  - vm_compute. reflexivity.
Defined.

(** ** The test bench *)

Lemma offered_app b l1 l2 : offered b (l1 ++ l2) = offered b l1 ++ offered b l2.
Proof.
  induction l1 as [| i r IH]; cbn [app offered]; [ reflexivity | ].
  rewrite IH, app_assoc. reflexivity.
Qed.

Lemma send_channels_spec bundle sample channels :
  forall d,
    let t := fst (send_channels d bundle sample channels) in
    let d' := snd (send_channels d bundle sample channels) in
    length t = length channels
    /\ offered bundle t
       = map (fun k => w_data (mk_stream_in true (Z.shiftl sample 8 + k) k
                                            (k =? 0) (k =? 7)))
             channels
    /\ (forall b, b <> bundle ->
                  Forall (fun i => bundles_in i b = bundles_in d b) t
                  /\ bundles_in d' b = bundles_in d b)
    /\ Forall (fun i => out_ready i = out_ready d
                        /\ in_valid (bundles_in i bundle) = true) t
    /\ out_ready d' = out_ready d
    /\ in_valid (bundles_in d' bundle)
       = match channels with
         | [] => in_valid (bundles_in d bundle)
         | _ :: _ => false
         end.
Proof.
  induction channels as [| k rest IH]; intros d; cbn [send_channels].
  - cbn. repeat split; constructor.
  - unfold send_one_frame.
    set (d1 := drive d bundle
                     (mk_stream_in true (Z.shiftl sample 8 + k) k
                                   (k =? 0) (k =? 7))).
    set (d2 := drive d1 bundle (set_valid (bundles_in d1 bundle) false)).
    specialize (IH d2).
    destruct (send_channels d2 bundle sample rest) as [t2 d3].
    cbn [fst snd app length offered map] in *.
    destruct IH as (Hlen & Hoff & Hoth & Hrdy & Hrdy' & Hval).
    assert (H1 : bundles_in d1 bundle
                 = mk_stream_in true (Z.shiftl sample 8 + k) k
                                (k =? 0) (k =? 7))
      by (subst d1; cbn [bundles_in drive]; rewrite Nat.eqb_refl; reflexivity).
    assert (H2 : in_valid (bundles_in d2 bundle) = false)
      by (subst d2; cbn [bundles_in drive]; rewrite Nat.eqb_refl; reflexivity).
    assert (Hb : forall b, b <> bundle -> bundles_in d2 b = bundles_in d b
                                          /\ bundles_in d1 b = bundles_in d b).
    { intros b Hne. apply Nat.eqb_neq in Hne. subst d2 d1.
      cbn [bundles_in drive]. rewrite Hne. split; reflexivity. }
    split; [ rewrite Hlen; reflexivity | ].
    split; [ rewrite H1, Hoff; reflexivity | ].
    split; [ | split; [ | split ] ].
    + intros b Hne. destruct (Hoth b Hne) as [Ht2 Hd3].
      destruct (Hb b Hne) as [Hb2 Hb1]. split.
      * constructor; [ exact Hb1 | ].
        rewrite <- Hb2. exact Ht2.
      * rewrite Hd3. exact Hb2.
    + constructor; [ rewrite H1; split; reflexivity | exact Hrdy ].
    + exact Hrdy'.
    + rewrite Hval. destruct rest; [ exact H2 | reflexivity ].
Qed.

Lemma send_channels_streams bundle sample channels :
  forall d,
    map (fun i => bundles_in i bundle)
        (fst (send_channels d bundle sample channels))
    = map (fun k => mk_stream_in true (Z.shiftl sample 8 + k) k
                                 (k =? 0) (k =? 7))
          channels.
Proof.
  induction channels as [| k rest IH]; intros d; cbn [send_channels];
    [ reflexivity | ].
  unfold send_one_frame.
  set (d1 := drive d bundle
                   (mk_stream_in true (Z.shiftl sample 8 + k) k
                                 (k =? 0) (k =? 7))).
  set (d2 := drive d1 bundle (set_valid (bundles_in d1 bundle) false)).
  specialize (IH d2).
  destruct (send_channels d2 bundle sample rest) as [t2 d3].
  cbn [fst app map] in *. rewrite IH. f_equal.
  subst d1. cbn [bundles_in drive]. rewrite Nat.eqb_refl. reflexivity.
Qed.

(** X12. [send_bundle_frame] sends one complete frame: it takes 8 ticks,
    on which it drives the bundle's stream with valid high, sub-channels
    0 to 7 in order, the sample shifted left by 8 plus the sub-channel as
    payload, the first flag on sub-channel 0 alone and the last flag on
    sub-channel 7 alone; the words these ticks offer to the FIFO are a
    framed frame; it leaves the signals of the other bundles and the
    consumer's ready as they were, and ends with the bundle's valid
    low. *)
Theorem send_bundle_frame_sends_frame (d : inputs) (bundle : nat) (sample : Z) :
  let t := fst (send_bundle_frame d bundle sample) in
  let d' := snd (send_bundle_frame d bundle sample) in
  length t = 8%nat
  /\ map (fun i => bundles_in i bundle) t
     = map (fun k => mk_stream_in true (Z.shiftl sample 8 + k) k
                                  (k =? 0) (k =? 7))
           [0; 1; 2; 3; 4; 5; 6; 7]
  /\ map (fun i => in_first (bundles_in i bundle)) t
     = [true; false; false; false; false; false; false; false]
  /\ map (fun i => in_last (bundles_in i bundle)) t
     = [false; false; false; false; false; false; false; true]
  /\ offered bundle t
     = map (fun k => w_data (mk_stream_in true (Z.shiftl sample 8 + k) k
                                          (k =? 0) (k =? 7)))
           [0; 1; 2; 3; 4; 5; 6; 7]
  /\ framed_from 0 (offered bundle t) = true
  /\ (forall b, b <> bundle ->
                Forall (fun i => bundles_in i b = bundles_in d b) t
                /\ bundles_in d' b = bundles_in d b)
  /\ Forall (fun i => out_ready i = out_ready d
                      /\ in_valid (bundles_in i bundle) = true) t
  /\ out_ready d' = out_ready d
  /\ in_valid (bundles_in d' bundle) = false.
Proof.
  intros t d'. subst t d'. unfold send_bundle_frame.
  change (map Z.of_nat (seq 0 (Z.to_nat NO_CHANNELS_ADAT)))
    with [0; 1; 2; 3; 4; 5; 6; 7].
  pose proof (send_channels_streams bundle sample [0; 1; 2; 3; 4; 5; 6; 7] d)
    as Hstreams.
  destruct (send_channels_spec bundle sample [0; 1; 2; 3; 4; 5; 6; 7] d)
    as (Hlen & Hoff & Hoth & Hrdy & Hrdy' & Hval).
  split; [ exact Hlen | ]. split; [ exact Hstreams | ].
  split.
  { rewrite <- (map_map (fun i => bundles_in i bundle) in_first), Hstreams.
    reflexivity. }
  split.
  { rewrite <- (map_map (fun i => bundles_in i bundle) in_last), Hstreams.
    reflexivity. }
  repeat split; try assumption; try (apply Hoth; assumption).
  rewrite Hoff. cbn [map framed_from].
  rewrite !word_channel_w_data, !word_last_w_data. reflexivity.
Qed.

Lemma send_bundle_frame_spec d bundle sample :
  let t := fst (send_bundle_frame d bundle sample) in
  length t = 8%nat
  /\ offered bundle t
     = map (fun k => w_data (mk_stream_in true (Z.shiftl sample 8 + k) k
                                          (k =? 0) (k =? 7)))
           [0; 1; 2; 3; 4; 5; 6; 7]
  /\ Forall (fun i => out_ready i = out_ready d
                      /\ in_valid (bundles_in i bundle) = true) t.
Proof.
  intros t. subst t. unfold send_bundle_frame.
  change (map Z.of_nat (seq 0 (Z.to_nat NO_CHANNELS_ADAT)))
    with [0; 1; 2; 3; 4; 5; 6; 7].
  destruct (send_channels_spec bundle sample [0; 1; 2; 3; 4; 5; 6; 7] d)
    as (Hlen & Hoff & _ & Hrdy & _).
  repeat split; assumption.
Qed.

(** ** A frame through the core *)

Section Pipeline.

Variable no_bundles : nat.
Hypothesis bundles_pos : (1 <= no_bundles)%nat.
Local Set Default Proof Using "All".

(** With one word waiting in the selected buffer, the consumer ready and
    the producer writing, a tick lets the waiting word out and the written
    word in. *)
Lemma pipe_tick s p inp :
  inv no_bundles s ->
  fifo s (selected no_bundles s) = [p] ->
  out_ready inp = true ->
  in_valid (bundles_in inp (selected no_bundles s)) = true ->
  tick_event no_bundles s inp
  = [ mk_event (selected no_bundles s) p
               (expected_out no_bundles (selected no_bundles s) p) ]
  /\ fifo (step no_bundles s inp) (selected no_bundles s)
     = [ w_data (bundles_in inp (selected no_bundles s)) ]
  /\ (word_last p = false ->
      selected no_bundles (step no_bundles s inp) = selected no_bundles s
      /\ selector (step no_bundles s inp) = selector s).
Proof.
  intros Hinv Hq Hready Hvalid.
  assert (Hemit : emit no_bundles s inp = true)
    by (unfold emit, bundle_ready; rewrite Hq, Hready; reflexivity).
  split; [ | split ].
  - unfold tick_event. rewrite Hemit, out_expected, Hq by assumption.
    reflexivity.
  - rewrite fifo_step.
    + unfold Fifo.tick, Fifo.do_read, Fifo.do_write, read_enable,
        connect_w_en.
      rewrite Hq, Hemit, Hvalid, Nat.eqb_refl. reflexivity.
    + destruct Hinv as (-> & _). apply selected_lt; assumption.
  - intros Hlast.
    assert (Hbl : bundle_last s (selected no_bundles s) = false)
      by (unfold bundle_last; rewrite Hq; exact Hlast).
    split.
    + rewrite selected_step, Hbl, andb_false_r by assumption. reflexivity.
    + unfold selector, step, next_current_bundle, next_first_bundle_channel.
      cbn [current_bundle first_bundle_channel].
      rewrite Hbl, andb_false_r. reflexivity.
Qed.

Lemma pipeline t :
  forall s p,
    inv no_bundles s ->
    fifo s (selected no_bundles s) = [p] ->
    Forall (fun i => out_ready i = true
                     /\ in_valid (bundles_in i (selected no_bundles s)) = true)
           t ->
    Forall (fun w => word_last w = false)
           (removelast (p :: offered (selected no_bundles s) t)) ->
    emitted no_bundles s t
    = map (fun w => mk_event (selected no_bundles s) w
                             (expected_out no_bundles
                                           (selected no_bundles s) w))
          (removelast (p :: offered (selected no_bundles s) t))
    /\ fifo (run no_bundles s t) (selected no_bundles s)
       = [ List.last (offered (selected no_bundles s) t) p ]
    /\ selected no_bundles (run no_bundles s t) = selected no_bundles s
    /\ selector (run no_bundles s t) = selector s.
Proof.
  induction t as [| inp rest IH]; intros s p Hinv Hq Hticks Hnl.
  - cbn. auto.
  - inversion Hticks as [| ? ? [Hready Hvalid] Hrest]; subst.
    destruct (pipe_tick s p inp Hinv Hq Hready Hvalid) as (He & Hq' & Hsame).
    cbn [offered] in *. unfold connect_w_en in *. rewrite Hvalid in *.
    cbn [app] in *.
    set (w := w_data (bundles_in inp (selected no_bundles s))) in *.
    change (removelast (p :: w :: offered (selected no_bundles s) rest))
      with (p :: removelast (w :: offered (selected no_bundles s) rest))
      in *.
    inversion Hnl as [| ? ? Hp Hnl']; subst.
    destruct (Hsame Hp) as [Hsel Hs].
    rewrite <- Hsel in Hq', Hrest, Hnl'.
    destruct (IH _ w (inv_step no_bundles bundles_pos s inp Hinv)
                 Hq' Hrest Hnl') as (IHe & IHq & IHsel & IHs).
    rewrite Hsel in *.
    cbn [emitted run map]. rewrite He, IHe, IHq, IHsel, IHs, Hs.
    repeat split. cbn [app].
    change (List.last (w :: offered (selected no_bundles s) rest) p)
      with (match offered (selected no_bundles s) rest with
            | [] => w
            | _ :: _ => List.last (offered (selected no_bundles s) rest) p
            end).
    destruct (offered (selected no_bundles s) rest) as [| x l] eqn:Ho;
      [ reflexivity | ].
    f_equal. clear. revert x. induction l as [| y l IHl]; intros x;
      [ reflexivity | ]. cbn [List.last] in *. apply IHl.
Qed.

End Pipeline.

Lemma run_app n l1 l2 :
  forall s, run n s (l1 ++ l2) = run n (run n s l1) l2.
Proof.
  induction l1 as [| i r IH]; intros s; cbn [app run];
    [ reflexivity | apply IH ].
Qed.

Lemma emitted_app n l1 l2 :
  forall s, emitted n s (l1 ++ l2)
            = emitted n s l1 ++ emitted n (run n s l1) l2.
Proof.
  induction l1 as [| i r IH]; intros s; cbn [app run emitted];
    [ reflexivity | ].
  rewrite IH, app_assoc. reflexivity.
Qed.

(** The frame of [send_bundle_frame], word by word. *)
Lemma frame_word_fields sample k :
  0 <= k < 8 ->
  let w := w_data (mk_stream_in true (Z.shiftl sample 8 + k) k
                                (k =? 0) (k =? 7)) in
  word_sample w = trunc SAMPLE_WIDTH (Z.shiftl sample 8 + k)
  /\ word_channel w = k
  /\ word_last w = (k =? 7).
Proof.
  intros Hk w. subst w.
  rewrite word_sample_w_data, word_channel_w_data, word_last_w_data.
  cbn [in_payload in_channel_nr in_last].
  repeat split. apply trunc_small; [ rewrite bundle_channel_bits_eq; lia | ].
  rewrite bundle_channel_bits_eq. change (2 ^ 3) with 8. exact Hk.
Qed.

(** X13. A frame goes through in order and one tick late: when the
    selected bundle's buffer is empty and the consumer is ready,
    [send_bundle_frame] on that bundle followed by one more ready tick
    makes the core transfer exactly the 8 events of the frame, in order,
    each with the low 24 bits of its payload, the channel number 8 times
    the bundle index plus the sub-channel, first on sub-channel 0 of
    bundle 0 only and last on sub-channel 7 of the last bundle only; the
    selector then is at the next bundle of the round. *)
Theorem frame_goes_through (no_bundles : nat) (s : state) (d next : inputs)
        (sample : Z) :
  (1 <= no_bundles)%nat ->
  reachable no_bundles s ->
  fifo s (selected no_bundles s) = [] ->
  out_ready d = true ->
  out_ready next = true ->
  let bundle := selected no_bundles s in
  let t := fst (send_bundle_frame d bundle sample) in
  map (fun o => (payload o, channel_nr o, first o, last o))
      (transferred no_bundles s (t ++ [next]))
  = map (fun k => (trunc SAMPLE_WIDTH (Z.shiftl sample 8 + k),
                   Z.of_nat bundle * NO_CHANNELS_ADAT + k,
                   (bundle =? 0)%nat && (k =? 0),
                   (k =? 7) && (bundle =? no_bundles - 1)%nat))
        [0; 1; 2; 3; 4; 5; 6; 7]
  /\ selected no_bundles (run no_bundles s (t ++ [next]))
     = next_bundle no_bundles bundle.
Proof.
  intros Hn Hreach Hempty Hd Hnext bundle t. subst t bundle.
  pose proof (reachable_inv no_bundles Hn s Hreach) as Hinv.
  destruct (send_bundle_frame_spec d (selected no_bundles s) sample)
    as (Hlen & Hoff & Hticks).
  destruct (fst (send_bundle_frame d (selected no_bundles s) sample))
    as [| i0 t']; [ discriminate | ].
  inversion Hticks as [| ? ? [Hr0 Hv0] Hticks']; subst.
  rewrite Hd in Hr0.
  assert (Hticks1 :
            Forall (fun i => out_ready i = true
                             /\ in_valid (bundles_in i (selected no_bundles s))
                                = true) t').
  { eapply Forall_impl; [ | exact Hticks' ].
    intros i [Hr Hv]. rewrite Hd in Hr. split; assumption. }
  cbn [offered] in Hoff. unfold connect_w_en in Hoff. rewrite Hv0 in Hoff.
  cbn [app map] in Hoff.
  pose proof (f_equal (hd 0) Hoff) as Hw0.
  pose proof (f_equal (@tl Z) Hoff) as Hoff'.
  cbn [hd tl] in Hw0, Hoff'. clear Hoff.
  (* the tick of the first write *)
  assert (Hemit0 : emit no_bundles s i0 = false)
    by (unfold emit, bundle_ready; rewrite Hempty; reflexivity).
  destruct (idle_tick no_bundles Hn s i0 Hemit0) as (_ & He0 & _ & Hsel0 & Hq0).
  assert (Hinv1 : inv no_bundles (step no_bundles s i0))
    by (apply inv_step; assumption).
  assert (Hq1 : fifo (step no_bundles s i0)
                     (selected no_bundles (step no_bundles s i0))
                = [w_data (bundles_in i0 (selected no_bundles s))]).
  { rewrite Hsel0, Hq0.
    - rewrite Hempty. unfold written, Fifo.do_write, connect_w_en.
      rewrite Hempty, Hv0. reflexivity.
    - destruct Hinv as (-> & _). apply selected_lt; assumption. }
  (* the seven ticks that follow *)
  rewrite <- Hsel0 in Hticks1.
  assert (Hnl : Forall (fun w => word_last w = false)
                  (removelast
                     (w_data (bundles_in i0 (selected no_bundles s))
                      :: offered (selected no_bundles (step no_bundles s i0))
                                 t'))).
  { rewrite Hsel0, Hw0, Hoff'. cbn [removelast].
    repeat constructor; apply frame_word_fields; lia. }
  destruct (pipeline no_bundles Hn t' _ _ Hinv1 Hq1 Hticks1 Hnl)
    as (He & Hq & Hsel & _).
  rewrite Hsel0, Hw0, Hoff' in He, Hq. cbn [removelast List.last] in He, Hq.
  rewrite Hsel0 in Hsel.
  (* the tick that lets the last word out *)
  assert (Hinv2 : inv no_bundles (run no_bundles (step no_bundles s i0) t'))
    by (apply inv_run; assumption).
  assert (Hemit2 : emit no_bundles (run no_bundles (step no_bundles s i0) t')
                        next = true)
    by (unfold emit, bundle_ready; rewrite Hsel, Hq, Hnext; reflexivity).
  split.
  - rewrite transferred_emitted. cbn [app emitted].
    rewrite He0, emitted_app, He. cbn [emitted app].
    unfold tick_event. rewrite Hemit2, out_expected, Hsel, Hq by assumption.
    cbn [Fifo.r_data hd app map ev_out].
    unfold expected_out. cbn [payload channel_nr first last].
    rewrite !word_sample_w_data, !word_channel_w_data, !word_last_w_data.
    reflexivity.
  - cbn [app run]. rewrite run_app. cbn [run].
    rewrite selected_step, Hemit2, Hsel by assumption.
    unfold bundle_last. rewrite Hq. cbn [Fifo.r_data hd andb].
    destruct (frame_word_fields sample 7 ltac:(lia)) as (_ & _ & Hl).
    cbv zeta in Hl. rewrite Hl. reflexivity.
Qed.

Lemma frame_goes_through_witness :
  let s := run 4 (reset 4) test_smoke in
  let d := drive_ready undriven true in
  selected 4 (run 4 s (fst (send_bundle_frame d (selected 4 s) 5) ++ [d]))
  = next_bundle 4 (selected 4 s).
Proof.
  intros s d.
  refine (proj2 (frame_goes_through 4 s d d 5 _ _ _ _ _)).
  - lia.
  - exists test_smoke. reflexivity.
  - vm_compute. reflexivity.
  - reflexivity.
  - reflexivity.
Defined.

(** ** The channels of a round *)

Lemma numbered_exact l z rest :
  forall c,
    numbered c ((l ++ [z]) ++ rest) ->
    Forall (fun o => last o = false) l ->
    map channel_nr (l ++ [z])
    = map (fun k => c + Z.of_nat k) (seq 0 (length l + 1))
    /\ channel_nr z = c + Z.of_nat (length l).
Proof.
  induction l as [| x l IH]; intros c Hnum Hno;
    cbn [app numbered length Nat.add seq map] in *.
  - destruct Hnum as [Hz _]. rewrite Hz, Z.add_0_r. split; reflexivity.
  - destruct Hnum as [Hx Hnum].
    inversion Hno as [| ? ? Hlx Hno']; subst. rewrite Hlx in Hnum.
    destruct (IH _ Hnum Hno') as [Hmap Hz].
    split.
    + rewrite Hmap, Z.add_0_r. f_equal.
      rewrite <- seq_shift, map_map. apply map_ext. intros k. lia.
    + rewrite Hz. lia.
Qed.

(** X14. When the words every buffer accepts (the events transferred on
    its input, valid and ready both high) carry the sub-channels in the
    order 0 to 7 with last on sub-channel 7 exactly, a full round carries
    every channel exactly once and in order: the channel numbers of its
    events are 0, 1, ..., N*8 - 1. *)
Theorem round_covers_all_channels (no_bundles : nat) (ins : list inputs)
        (pre seg post : list event) :
  (1 <= no_bundles)%nat ->
  accepted_framed no_bundles ins ->
  emitted no_bundles (reset no_bundles) ins = pre ++ seg ++ post ->
  full_round no_bundles pre seg = true ->
  map (fun e => channel_nr (ev_out e)) seg
  = map Z.of_nat (seq 0 (no_bundles * 8)).
Proof.
  intros Hn Hwf Heq Hround.
  unfold full_round in Hround.
  repeat (apply andb_true_iff in Hround;
          let H := fresh "H" in destruct Hround as [Hround H]).
  rename Hround into Hbd, H2 into Hmod, H1 into Hne, H0 into Hsb, H into Hfr.
  apply Nat.eqb_eq in Hmod, Hfr.
  destruct (snoc_cases seg) as [-> | (body & z & -> & Hrev)];
    [ discriminate | ].
  unfold frame_boundary in Hsb. rewrite Hrev in Hsb.
  pose proof (follows_reset no_bundles Hn ins) as Hf. rewrite Heq in Hf.
  destruct (round_last_flags no_bundles Hn pre body z post Hf Hmod Hsb Hfr)
    as [Hz Hbody].
  pose proof (numbered_reset no_bundles Hn ins Hwf) as Hnum.
  rewrite transferred_emitted, Heq in Hnum.
  assert (Hseg : numbered 0 (map ev_out ((body ++ [z]) ++ post))).
  { destruct (rounds_end_with_last no_bundles Hn _ _ Hf Hbd Hmod)
      as [-> | (p & z' & -> & Hl)]; [ exact Hnum | ].
    rewrite <- app_assoc, map_app in Hnum. cbn [app map] in Hnum.
    exact (numbered_after_last _ _ _ _ Hnum Hl). }
  rewrite !map_app in Hseg. cbn [map] in Hseg.
  destruct (numbered_exact _ _ _ 0 Hseg) as [Hmap Hcz].
  { apply Forall_map. exact Hbody. }
  rewrite length_map in Hmap, Hcz.
  assert (Hin : In z (emitted no_bundles (reset no_bundles) ins)).
  { rewrite Heq. apply in_or_app. right. apply in_or_app. left.
    apply in_or_app. right. left. reflexivity. }
  pose proof (framed_word no_bundles Hn ins z Hwf Hin) as Hw.
  rewrite Hsb in Hw. symmetry in Hw. apply Z.eqb_eq in Hw.
  rewrite (follows_In no_bundles Hn _ z _
                      (follows_reset no_bundles Hn ins) Hin) in Hz, Hcz.
  unfold expected_out in Hz, Hcz. cbn [last channel_nr] in Hz, Hcz.
  apply andb_true_iff in Hz. destruct Hz as [_ Hb]. apply Nat.eqb_eq in Hb.
  unfold NO_CHANNELS_ADAT in *.
  assert (Hlen : (length body + 1 = no_bundles * 8)%nat) by lia.
  rewrite <- map_map with (f := ev_out) (g := channel_nr).
  rewrite map_app. cbn [map]. rewrite Hmap, Hlen.
  apply map_ext. intros k. lia.
Qed.

Lemma round_covers_all_channels_witness :
  map (fun e => channel_nr (ev_out e)) (emitted 4 (reset 4) test_smoke)
  = map Z.of_nat (seq 0 (4 * 8)).
Proof.
  refine (round_covers_all_channels 4 test_smoke []
            (emitted 4 (reset 4) test_smoke) [] _ _ _ _).
  - lia.
  - exact test_smoke_accepted_framed.
  - vm_compute. reflexivity.
  - vm_compute. reflexivity.
Defined.
